(** * Memory-based collaborative filtering on the Last.fm tables

    A shallow embedding of the notebook [last-fm-cf-B.ipynb]: the two
    input tables, the demographic filter, the inner join and the
    aggregation, the restriction to the most-played artists, the pivot,
    the pairwise cosine computation and [predict].

    Conventions of the embedding.
    - A data frame is the list of its rows, in row order.  Missing
      cells ([NaN]) occur in the [gender] and [country] columns of the
      profile table and are [None].  A row of the listening table can
      lack its artist name ([parsed_event]); both aggregations drop
      such rows before anything else reads them, so the tables of the
      pipeline hold the rows that carry a name ([event],
      [named_events]).
    - Play counts are integers.  pandas holds them as 64-bit integers;
      the totals of the data set (at most 30,466,827 in the notebook's
      output) are far from that bound and sums are taken in [Z].
    - The numeric arrays (the sparse matrix, the two similarity arrays,
      the predictions) hold real numbers: the floating-point rounding
      of numpy is not modelled.
    - The calls into pandas, scipy and scikit-learn are modelled by
      what the libraries document for them (scikit-learn 0.19, the
      release of the notebook's Python 3.6 environment: the cosine
      distance is 1 minus the cosine similarity, a row of norm 0 is
      left as it is by the normalisation; later releases also clip
      the distances to [0, 2] and reset the diagonal to 0, which
      changes nothing in exact arithmetic on rows of non-zero norm).
    - The cells that bind the notebook's names form [notebook]; the
      checking cell that follows the pivot binds nothing but can raise
      and is run by [first_part].  The second part of the notebook (the
      Surprise estimator) is outside the embedding.
    - A Python exception is a [Raise] result. *)

From Stdlib Require Import String Ascii.
From Stdlib Require Import List ZArith Bool Arith Lia.
From Stdlib Require Import Permutation Sorted.
From Stdlib Require Import Reals Lra.
Import ListNotations.

Set Implicit Arguments.

(** ** Exceptions *)

Inductive exn : Type :=
| ValueError
| UnboundLocalError
| NameError
| TypeError
| KeyError
| IndexError.

Inductive result (A : Type) : Type :=
| Ok (a : A)
| Raise (e : exn).

Arguments Ok {A} a.
Arguments Raise {A} e.

Definition bind {A B : Type} (r : result A) (k : A -> result B) : result B :=
  match r with
  | Ok a => k a
  | Raise e => Raise e
  end.

Notation "x <- r ;; k" := (bind r (fun x => k))
  (at level 61, r at next level, right associativity).

(** ** Sorting by a boolean order (the label order of pandas) *)

Section Sort.
Variable A : Type.
Variable le : A -> A -> bool.

Fixpoint insert_sorted (x : A) (l : list A) : list A :=
  match l with
  | [] => [x]
  | y :: l' => if le x y then x :: y :: l' else y :: insert_sorted x l'
  end.

Fixpoint isort (l : list A) : list A :=
  match l with
  | [] => []
  | x :: l' => insert_sorted x (isort l')
  end.
End Sort.

(** Lexicographic order on (user, artist) keys. *)
Definition key : Type := (string * string)%type.

Definition key_eqb (k1 k2 : key) : bool :=
  String.eqb (fst k1) (fst k2) && String.eqb (snd k1) (snd k2).

Definition key_leb (k1 k2 : key) : bool :=
  match String.compare (fst k1) (fst k2) with
  | Lt => true
  | Eq => String.leb (snd k1) (snd k2)
  | Gt => false
  end.

(** ** The two input tables *)

(** A row of [df_data]: columns [user], [artist], [plays]. *)
Record event : Type := Event {
  user : string;
  artist : string;
  plays : Z
}.

(** A row of [df_user]: columns [user], [gender], [country]. *)
Record profile : Type := Profile {
  profile_user : string;
  gender : option string;
  country : option string
}.

(** [column == 'text'] on a cell: a missing cell compares unequal. *)
Definition cell_eq (c : option string) (s : string) : bool :=
  match c with
  | Some x => String.eqb x s
  | None => false
  end.

(** ** Demographic filter *)

(** [df_user[df_user['country']=='United Kingdom'].drop('country', axis=1)]:
    rows are now (user, gender). *)
Definition df_user_UK (df_user : list profile) : list (string * option string) :=
  map (fun r => (profile_user r, gender r))
      (filter (fun r => cell_eq (country r) "United Kingdom") df_user).

(** [df_user_UK[df_user_UK['gender']=='f'].drop('gender', axis=1)]:
    rows are now the user alone. *)
Definition df_user_UK_female (df_user_UK : list (string * option string))
    : list string :=
  map fst (filter (fun r => cell_eq (snd r) "f") df_user_UK).

(** ** Join and aggregation *)

(** [left.merge(right, left_on='user', right_on='user', how='inner')]
    where [right] has the single column [user]: every left row is
    repeated once per right row with the same user. *)
Definition merge (left : list event) (right : list string) : list event :=
  flat_map (fun e => map (fun _ => e) (filter (String.eqb (user e)) right)) left.

(** Hash aggregation of a sum: the running total of a key is updated in
    place, a new key is appended. *)
Section Aggregate.
Variable K : Type.
Variable eqb : K -> K -> bool.

Fixpoint agg_add (k : K) (v : Z) (acc : list (K * Z)) : list (K * Z) :=
  match acc with
  | [] => [(k, v)]
  | (k', s) :: acc' =>
      if eqb k k' then (k', (s + v)%Z) :: acc'
      else (k', s) :: agg_add k v acc'
  end.

Definition agg_sum (rows : list (K * Z)) : list (K * Z) :=
  fold_left (fun acc kv => agg_add (fst kv) (snd kv) acc) rows [].
End Aggregate.

(** [groupby(keys).sum()]: one row per key, in sorted key order. *)
Definition groupby_sum (K : Type) (eqb le : K -> K -> bool)
    (rows : list (K * Z)) : list (K * Z) :=
  isort (fun x y => le (fst x) (fst y)) (agg_sum eqb rows).

(** [df = df_data.merge(df_user_UK_female, ...)], from the two input tables. *)
Definition df_merge (df_data : list event) (df_user : list profile) : list event :=
  merge df_data (df_user_UK_female (df_user_UK df_user)).

(** [df = df.groupby(['user','artist'], as_index=False).sum()] *)
Definition groupby_user_artist (df : list event) : list event :=
  map (fun kv => Event (fst (fst kv)) (snd (fst kv)) (snd kv))
      (groupby_sum key_eqb key_leb
         (map (fun e => ((user e, artist e), plays e)) df)).

(** The aggregated [df], from the two input tables. *)
Definition df_groupby (df_data : list event) (df_user : list profile) : list event :=
  groupby_user_artist (df_merge df_data df_user).

(** ** Restriction to the most-played artists *)

(** [df_data.groupby(['artist'])['plays'].sum().reset_index()
      .rename(columns = {'plays': 'total_plays'})]:
    rows are (artist, total_plays). *)
Definition df_artist (df_data : list event) : list (string * Z) :=
  groupby_sum String.eqb String.leb
    (map (fun e => (artist e, plays e)) df_data).

(** [df_artist[df_artist['total_plays']>200000]
      .sort_values('total_plays', ascending=False)] *)
Definition df_top_artist (df_artist : list (string * Z)) : list (string * Z) :=
  isort (fun x y => (snd y <=? snd x)%Z)
        (filter (fun r => (200000 <? snd r)%Z) df_artist).

(** [top_artist = list(df_top_artist['artist'])] *)
Definition top_artist (df_top_artist : list (string * Z)) : list string :=
  map fst df_top_artist.

(** The list [top_artist], from the listening events. *)
Definition top_artists_of (df_data : list event) : list string :=
  top_artist (df_top_artist (df_artist df_data)).

(** [series.isin(values)] on one cell. *)
Definition isin (s : string) (values : list string) : bool :=
  existsb (String.eqb s) values.

(** [df = df[df['artist'].isin(top_artist)]] *)
Definition restrict_artists (df : list event) (top : list string) : list event :=
  filter (fun e => isin (artist e) top) df.

(** The restricted [df], from the two input tables. *)
Definition df_isin (df_data : list event) (df_user : list profile) : list event :=
  restrict_artists (df_groupby df_data df_user) (top_artists_of df_data).

(** ** Listening events as parsed: the artist name can be missing *)

(** A row of [df_data] as [read_table] gives it: an empty artist name,
    'NA', 'null' and the like are read as [NaN], here [None]. *)
Record parsed_event : Type := Parsed {
  parsed_user : string;
  parsed_artist : option string;
  parsed_plays : Z
}.

(** The rows that carry an artist name. *)
Definition named_events (t : list parsed_event) : list event :=
  flat_map (fun r => match parsed_artist r with
                     | Some a => [Event (parsed_user r) a (parsed_plays r)]
                     | None => []
                     end) t.

(** The rows that carry none. *)
Definition unnamed_events (t : list parsed_event) : list parsed_event :=
  filter (fun r => match parsed_artist r with Some _ => false | None => true end) t.

(** The merge of the notebook on parsed rows: the artist plays no part. *)
Definition merge_parsed (left : list parsed_event) (right : list string)
    : list parsed_event :=
  flat_map (fun e => map (fun _ => e) (filter (String.eqb (parsed_user e)) right))
           left.

(** [groupby(keys).sum()] on keys that can be missing: a row whose key
    is [NaN] joins no group. *)
Definition agg_sum_dropna (K : Type) (eqb : K -> K -> bool)
    (rows : list (option K * Z)) : list (K * Z) :=
  fold_left (fun acc kv => match fst kv with
                           | Some k => agg_add eqb k (snd kv) acc
                           | None => acc
                           end) rows [].

Definition groupby_sum_dropna (K : Type) (eqb le : K -> K -> bool)
    (rows : list (option K * Z)) : list (K * Z) :=
  isort (fun x y => le (fst x) (fst y)) (agg_sum_dropna eqb rows).

(** [df_data.groupby(['artist'])['plays'].sum()] on the parsed rows. *)
Definition df_artist_parsed (t : list parsed_event) : list (string * Z) :=
  groupby_sum_dropna String.eqb String.leb
    (map (fun r => (parsed_artist r, parsed_plays r)) t).

(** [df.groupby(['user','artist'], as_index=False).sum()] on parsed
    rows: the key of a row is missing when its artist is. *)
Definition groupby_user_artist_parsed (t : list parsed_event) : list event :=
  map (fun kv => Event (fst (fst kv)) (snd (fst kv)) (snd kv))
      (groupby_sum_dropna key_eqb key_leb
         (map (fun r => (option_map (fun a => (parsed_user r, a))
                                    (parsed_artist r),
                         parsed_plays r)) t)).

(** ** Pivot *)

(** A labelled two-dimensional table: [index] labels the rows,
    [columns] labels the columns, [values] is row-major. *)
Record frame (C : Type) : Type := Frame {
  index : list string;
  columns : list string;
  values : list (list C)
}.

(** Sorted distinct labels. *)
Definition unique_sorted (l : list string) : list string :=
  isort String.leb (nodup string_dec l).

(** Whether some (index, column) pair occurs in two rows. *)
Fixpoint duplicated (keys : list key) : bool :=
  match keys with
  | [] => false
  | k :: keys' => existsb (key_eqb k) keys' || duplicated keys'
  end.

(** The [plays] cell of the row of [df] for artist [a] and user [u];
    [None] is the [NaN] of a pair with no row. *)
Definition cell_at (df : list event) (a u : string) : option Z :=
  option_map plays
    (find (fun e => String.eqb (artist e) a && String.eqb (user e) u) df).

(** [df.pivot(index='artist', columns='user', values='plays')]:
    raises [ValueError] ("Index contains duplicate entries, cannot
    reshape") when an (artist, user) pair occurs twice. *)
Definition pivot (df : list event) : result (frame (option Z)) :=
  if duplicated (map (fun e => (artist e, user e)) df) then Raise ValueError
  else
    let idx := unique_sorted (map artist df) in
    let cols := unique_sorted (map user df) in
    Ok (Frame idx cols (map (fun a => map (fun u => cell_at df a u) cols) idx)).

(** [frame.fillna(v)] *)
Definition fillna (v : Z) (m : frame (option Z)) : frame Z :=
  Frame (index m) (columns m)
        (map (map (fun c => match c with Some x => x | None => v end)) (values m)).

(** [matrix = df.pivot(index ='artist', columns='user', values='plays').fillna(0)] *)
Definition matrix (df : list event) : result (frame Z) :=
  m <- pivot df ;; Ok (fillna 0 m).

(** Position of a label in a label list. *)
Fixpoint get_loc (s : string) (labels : list string) : option nat :=
  match labels with
  | [] => None
  | x :: labels' =>
      if String.eqb s x then Some 0
      else option_map S (get_loc s labels')
  end.

(** [m.loc[a][u]]: the entry addressed by a row label and a column label. *)
Definition loc (m : frame Z) (a u : string) : option Z :=
  match get_loc a (index m), get_loc u (columns m) with
  | Some i, Some j => nth_error (nth i (values m) []) j
  | _, _ => None
  end.

(** ** Row selections of the checking cells *)

(** [table[start:stop]]: the rows at positions [start] to [stop - 1]. *)
Definition slice_rows {A : Type} (start stop : nat) (table : list A) : list A :=
  firstn (stop - start) (skipn start table).

(** The rows printed under "Top 10 artists": [df_top_artist[0:9]]. *)
Definition top_artists_printed (df_top_artist : list (string * Z))
    : list (string * Z) :=
  slice_rows 0%nat 9%nat df_top_artist.

(** [matrix.shape] *)
Definition shape (m : frame Z) : nat * nat :=
  (length (index m), length (columns m)).

(** [matrix.iloc[i]]: the row at a position; [None] is the [IndexError]
    of a position out of bounds. *)
Definition iloc (m : frame Z) (i : nat) : option (list Z) :=
  nth_error (values m) i.

(** [matrix.loc[a]]: the row of a label; [None] is the [KeyError] of a
    label that is not in the index. *)
Definition loc_row (m : frame Z) (a : string) : option (list Z) :=
  match get_loc a (index m) with
  | Some i => iloc m i
  | None => None
  end.

(** ** Numeric arrays *)

Open Scope R_scope.

(** A two-dimensional array, row-major.  An array with no row has no
    column either. *)
Definition ndarray : Type := list (list R).

Definition nrows (A : ndarray) : nat := length A.

Definition ncols (A : ndarray) : nat :=
  match A with
  | [] => 0%nat
  | r :: _ => length r
  end.

Definition entry (A : ndarray) (i j : nat) : R := nth j (nth i A []) 0.

Definition build (r c : nat) (f : nat -> nat -> R) : ndarray :=
  map (fun i => map (fun j => f i j) (seq 0 c)) (seq 0 r).

Definition Rsum (l : list R) : R := fold_right Rplus 0 l.

Definition sum_upto (n : nat) (f : nat -> R) : R := Rsum (map f (seq 0 n)).

(** [A.T] *)
Definition transpose (A : ndarray) : ndarray :=
  build (ncols A) (nrows A) (fun i j => entry A j i).

(** The matrix product of arrays whose inner dimensions agree. *)
Definition matmul (A B : ndarray) : ndarray :=
  build (nrows A) (ncols B)
        (fun i j => sum_upto (ncols A) (fun l => entry A i l * entry B l j)).

(** [A.dot(B)]: raises [ValueError] on an inner dimension mismatch. *)
Definition dot (A B : ndarray) : result ndarray :=
  if (ncols A =? nrows B)%nat then Ok (matmul A B) else Raise ValueError.

(** numpy broadcasting of one dimension. *)
Definition broadcast_dim (a b : nat) : option nat :=
  if (a =? b)%nat then Some a
  else if (a =? 1)%nat then Some b
  else if (b =? 1)%nat then Some a
  else None.

Definition broadcast_index (n i : nat) : nat := if (n =? 1)%nat then 0%nat else i.

(** An elementwise binary operation on two arrays, with broadcasting;
    raises [ValueError] when the shapes cannot be broadcast together. *)
Definition elementwise (f : R -> R -> R) (A B : ndarray) : result ndarray :=
  match broadcast_dim (nrows A) (nrows B), broadcast_dim (ncols A) (ncols B) with
  | Some r, Some c =>
      Ok (build r c (fun i j =>
            f (entry A (broadcast_index (nrows A) i) (broadcast_index (ncols A) j))
              (entry B (broadcast_index (nrows B) i) (broadcast_index (ncols B) j))))
  | _, _ => Raise ValueError
  end.

(** [np.abs(A)] *)
Definition abs (A : ndarray) : ndarray := map (map Rabs) A.

(** [A.sum(axis=1)]: the sums of the rows, a one-dimensional array. *)
Definition sum_axis1 (A : ndarray) : list R := map Rsum A.

(** [A.mean(axis=1)] of a sparse matrix: a column of row means. *)
Definition mean_axis1 (A : ndarray) : ndarray :=
  map (fun row => [Rsum row / INR (ncols A)]) A.

(** [csr_matrix(matrix)]: the values of the frame as numbers. *)
Definition csr_matrix (m : frame Z) : ndarray := map (map IZR) (values m).

(** ** Pairwise cosine computation *)

Definition norm (x : list R) : R := sqrt (Rsum (map (fun v => v * v) x)).

(** Row normalisation of scikit-learn: a row of norm 0 is left as it is. *)
Definition normalize_row (x : list R) : list R :=
  let d := if Req_dec_T (norm x) 0 then 1 else norm x in
  map (fun v => v / d) x.

Definition normalize (X : ndarray) : ndarray := map normalize_row X.

(** [cosine_similarity(X)]: products of the normalised rows. *)
Definition cosine_similarity (X : ndarray) : ndarray :=
  matmul (normalize X) (transpose (normalize X)).

(** [cosine_distances(X)]: [S = cosine_similarity(X); S *= -1; S += 1],
    as in scikit-learn 0.19.  Later releases add [np.clip(S, 0, 2)] and
    set the diagonal to 0: in exact arithmetic the two agree except on
    the diagonal entry of a row of norm 0, which is 1 here. *)
Definition cosine_distances (X : ndarray) : ndarray :=
  map (map (fun s => s * -1 + 1)) (cosine_similarity X).

(** [pairwise_distances(X, metric='cosine')]: an array without a sample
    or without a feature is refused with [ValueError]. *)
Definition pairwise_distances (X : ndarray) : result ndarray :=
  if ((nrows X =? 0) || (ncols X =? 0))%nat then Raise ValueError
  else Ok (cosine_distances X).

(** ** Prediction *)

(** [predict(matrix, similarity, type)] *)
Definition predict (matrix similarity : ndarray) (type : string) : result ndarray :=
  if String.eqb type "user" then
    let mean_user_rating := mean_axis1 matrix in
    ratings_diff <- elementwise Rminus matrix mean_user_rating ;;
    num <- dot similarity ratings_diff ;;
    quot <- elementwise Rdiv num (transpose [sum_axis1 (abs similarity)]) ;;
    elementwise Rplus mean_user_rating quot
  else if String.eqb type "item" then
    num <- dot matrix similarity ;;
    elementwise Rdiv num [sum_axis1 (abs similarity)]
  else Raise UnboundLocalError.

(** ** The notebook as a sequence of cells over its global variables *)

(** The objects bound to the notebook's global names. *)
Inductive value : Type :=
| VEvents (t : list event)
| VProfiles (t : list profile)
| VUserGender (t : list (string * option string))
| VUsers (t : list string)
| VTotals (t : list (string * Z))
| VList (l : list string)
| VFrame (m : frame Z)
| VArray (A : ndarray).

(** The global name space; the latest binding of a name comes first. *)
Definition env : Type := list (string * value).

Fixpoint lookup (x : string) (g : env) : option value :=
  match g with
  | [] => None
  | (y, v) :: g' => if String.eqb x y then Some v else lookup x g'
  end.

Definition assign (x : string) (v : value) (g : env) : env := (x, v) :: g.

Definition as_events (v : value) : option (list event) :=
  match v with VEvents t => Some t | _ => None end.
Definition as_profiles (v : value) : option (list profile) :=
  match v with VProfiles t => Some t | _ => None end.
Definition as_user_gender (v : value) : option (list (string * option string)) :=
  match v with VUserGender t => Some t | _ => None end.
Definition as_users (v : value) : option (list string) :=
  match v with VUsers t => Some t | _ => None end.
Definition as_totals (v : value) : option (list (string * Z)) :=
  match v with VTotals t => Some t | _ => None end.
Definition as_list (v : value) : option (list string) :=
  match v with VList l => Some l | _ => None end.
Definition as_frame (v : value) : option (frame Z) :=
  match v with VFrame m => Some m | _ => None end.
Definition as_array (v : value) : option ndarray :=
  match v with VArray A => Some A | _ => None end.

(** Reading a global: an unbound name raises [NameError], an object of
    another kind raises [TypeError]. *)
Definition read (A : Type) (proj : value -> option A) (x : string) (g : env)
    : result A :=
  match lookup x g with
  | None => Raise NameError
  | Some v =>
      match proj v with
      | Some a => Ok a
      | None => Raise TypeError
      end
  end.

(** The code cells of the first part of the notebook that bind globals,
    in notebook order.  The checking cells bind nothing: the one after
    the pivot can raise and is [cell_checking] below, run in its place
    by [first_part]; the others only read lengths and shapes.  The
    cells of the second part (the Surprise estimator) read [df] and
    [matrix] and bind names of their own. *)
Inductive cell : Type :=
| LoadFiles       (* df_data, df_user *)
| Demographic     (* df_user_UK, df_user_UK_female, df *)
| ArtistTotals    (* df_artist *)
| TopArtists      (* df_top_artist *)
| Restrict        (* top_artist, df *)
| Pivot           (* matrix, matrix_sparse *)
| Similarity      (* item_similarity, user_similarity *)
| Prediction.     (* item_prediction, user_prediction *)

Section Cells.
(** The parsed contents of the two input files. *)
Variable file_data : list event.
Variable file_profiles : list profile.

Definition exec_cell (c : cell) (g : env) : result env :=
  match c with
  | LoadFiles =>
      Ok (assign "df_user" (VProfiles file_profiles)
         (assign "df_data" (VEvents file_data) g))
  | Demographic =>
      t <- read as_profiles "df_user" g ;;
      let g := assign "df_user_UK" (VUserGender (df_user_UK t)) g in
      t <- read as_user_gender "df_user_UK" g ;;
      let g := assign "df_user_UK_female" (VUsers (df_user_UK_female t)) g in
      l <- read as_events "df_data" g ;;
      r <- read as_users "df_user_UK_female" g ;;
      let g := assign "df" (VEvents (merge l r)) g in
      t <- read as_events "df" g ;;
      Ok (assign "df" (VEvents (groupby_user_artist t)) g)
  | ArtistTotals =>
      t <- read as_events "df_data" g ;;
      Ok (assign "df_artist" (VTotals (df_artist t)) g)
  | TopArtists =>
      t <- read as_totals "df_artist" g ;;
      Ok (assign "df_top_artist" (VTotals (df_top_artist t)) g)
  | Restrict =>
      t <- read as_totals "df_top_artist" g ;;
      let g := assign "top_artist" (VList (top_artist t)) g in
      t <- read as_events "df" g ;;
      top <- read as_list "top_artist" g ;;
      Ok (assign "df" (VEvents (restrict_artists t top)) g)
  | Pivot =>
      t <- read as_events "df" g ;;
      m <- matrix t ;;
      let g := assign "matrix" (VFrame m) g in
      m <- read as_frame "matrix" g ;;
      Ok (assign "matrix_sparse" (VArray (csr_matrix m)) g)
  | Similarity =>
      X <- read as_array "matrix_sparse" g ;;
      S <- pairwise_distances X ;;
      let g := assign "item_similarity" (VArray S) g in
      X <- read as_array "matrix_sparse" g ;;
      S <- pairwise_distances (transpose X) ;;
      Ok (assign "user_similarity" (VArray S) g)
  | Prediction =>
      X <- read as_array "matrix_sparse" g ;;
      S <- read as_array "item_similarity" g ;;
      P <- predict (transpose X) S "item" ;;
      let g := assign "item_prediction" (VArray P) g in
      X <- read as_array "matrix_sparse" g ;;
      S <- read as_array "user_similarity" g ;;
      P <- predict (transpose X) S "user" ;;
      Ok (assign "user_prediction" (VArray P) g)
  end.

Fixpoint exec (cells : list cell) (g : env) : result env :=
  match cells with
  | [] => Ok g
  | c :: cells' => g' <- exec_cell c g ;; exec cells' g'
  end.
End Cells.

Definition notebook : list cell :=
  [LoadFiles; Demographic; ArtistTotals; TopArtists; Restrict; Pivot; Similarity;
   Prediction].

(** One run of the binding cells, top to bottom, from an empty name
    space. *)
Definition run (file_data : list event) (file_profiles : list profile) : result env :=
  exec file_data file_profiles notebook [].

(** ** The checking cell after the pivot *)

Definition or_raise (A : Type) (e : exn) (o : option A) : result A :=
  match o with
  | Some a => Ok a
  | None => Raise e
  end.

(** The cell
    [matrix.shape; matrix.index.get_loc('radiohead'); matrix.index[1976];
     matrix.iloc[1976]; matrix.loc["radiohead"]]:
    its value is that of the last expression. *)
Definition checking (m : frame Z) : result (list Z) :=
  let dims := shape m in
  position <- or_raise KeyError (get_loc "radiohead" (index m)) ;;
  label <- or_raise IndexError (nth_error (index m) 1976%nat) ;;
  row <- or_raise IndexError (iloc m 1976%nat) ;;
  or_raise KeyError (loc_row m "radiohead").

(** The checking cell on the name space: it binds nothing. *)
Definition cell_checking (g : env) : result env :=
  m <- read as_frame "matrix" g ;;
  row <- checking m ;;
  Ok g.

(** The first part of the notebook, top to bottom: the cells up to the
    pivot, the checking cell, the similarity and prediction cells. *)
Definition first_part (file_data : list event) (file_profiles : list profile)
    : result env :=
  g <- exec file_data file_profiles (firstn 6 notebook) [] ;;
  g <- cell_checking g ;;
  exec file_data file_profiles (skipn 6 notebook) g.

(** ** Quantities the statements refer to *)

(** Sum of the [plays] of the rows of a table for one artist. *)
Definition total_plays (t : list event) (a : string) : Z :=
  fold_right Z.add 0%Z
    (map plays (filter (fun e => String.eqb (artist e) a) t)).

(** Sum of the [plays] of the rows of a table for one (user, artist) pair. *)
Definition pair_plays (t : list event) (u a : string) : Z :=
  fold_right Z.add 0%Z
    (map plays
       (filter (fun e => String.eqb (user e) u && String.eqb (artist e) a) t)).

(** An array of [r] rows of [c] entries each. *)
Definition has_shape (r c : nat) (A : ndarray) : Prop :=
  length A = r /\ Forall (fun row => length row = c) A.

(** Sum of the values recorded under one key in a keyed table. *)
Definition key_total (K : Type) (eqb : K -> K -> bool) (k : K)
    (rows : list (K * Z)) : Z :=
  fold_right Z.add 0%Z (map snd (filter (fun kv => eqb k (fst kv)) rows)).

(** The labels of a frame are pairwise distinct and its values have one
    row per row label and one entry per column label in each row. *)
Definition well_labelled (m : frame Z) : Prop :=
  NoDup (index m) /\ NoDup (columns m)
  /\ length (values m) = length (index m)
  /\ Forall (fun row => length row = length (columns m)) (values m).

(** Whatever is bound to [matrix] came out of a pivot. *)
Definition pivoted (g : env) : Prop :=
  forall m, lookup "matrix" g = Some (VFrame m) -> exists t, matrix t = Ok m.

(** Following the spec: the cosine similarity of two vectors is their
    dot product divided by the product of their norms. *)
Definition spec_dot_product (x y : list R) : R :=
  Rsum (map (fun xy => fst xy * snd xy) (combine x y)).

Definition spec_cosine_similarity (x y : list R) : R :=
  spec_dot_product x y / (norm x * norm y).

(** * Facts about sorting *)

Unset Implicit Arguments.

Section SortFacts.
Variable A : Type.
Variable le : A -> A -> bool.

Lemma insert_sorted_perm (x : A) (l : list A) :
  Permutation (insert_sorted le x l) (x :: l).
Proof.
  induction l as [|y l IH]; simpl.
  - apply Permutation_refl.
  - destruct (le x y).
    + apply Permutation_refl.
    + apply perm_trans with (y :: x :: l).
      * now apply perm_skip.
      * apply perm_swap.
Qed.

Lemma isort_perm (l : list A) : Permutation (isort le l) l.
Proof.
  induction l as [|x l IH]; simpl.
  - apply perm_nil.
  - apply perm_trans with (x :: isort le l).
    + apply insert_sorted_perm.
    + now apply perm_skip.
Qed.

Lemma isort_In (l : list A) (x : A) : In x (isort le l) <-> In x l.
Proof.
  split; apply Permutation_in.
  - apply isort_perm.
  - apply Permutation_sym, isort_perm.
Qed.

Lemma isort_map_NoDup (B : Type) (f : A -> B) (l : list A) :
  NoDup (map f l) -> NoDup (map f (isort le l)).
Proof.
  intros H. eapply Permutation_NoDup; [|exact H].
  apply Permutation_map, Permutation_sym, isort_perm.
Qed.

Lemma isort_length (l : list A) : length (isort le l) = length l.
Proof. apply Permutation_length, isort_perm. Qed.
End SortFacts.

(** * Facts about the aggregation *)

Section AggregateFacts.
Variable K : Type.
Variable eqb : K -> K -> bool.
Hypothesis eqb_eq : forall a b, eqb a b = true <-> a = b.

Let eqb_refl (a : K) : eqb a a = true.
Proof. now apply eqb_eq. Qed.

Lemma agg_add_keys (k : K) (v : Z) (acc : list (K * Z)) (k' : K) :
  In k' (map fst (agg_add eqb k v acc)) <-> k' = k \/ In k' (map fst acc).
Proof.
  induction acc as [|[k0 s] acc IH]; simpl.
  - intuition.
  - destruct (eqb k k0) eqn:E; simpl.
    + apply eqb_eq in E. subst k0. intuition.
    + rewrite IH. intuition.
Qed.

Lemma agg_add_NoDup (k : K) (v : Z) (acc : list (K * Z)) :
  NoDup (map fst acc) -> NoDup (map fst (agg_add eqb k v acc)).
Proof.
  induction acc as [|[k0 s] acc IH]; simpl; intros H.
  - constructor; [intros []|constructor].
  - inversion H as [|? ? Hn Hd]; subst.
    destruct (eqb k k0) eqn:E; simpl.
    + now constructor.
    + constructor; [|now apply IH].
      rewrite agg_add_keys. intros [->|Hin]; [|now apply Hn].
      rewrite eqb_refl in E. discriminate.
Qed.

Lemma key_total_agg_add (k : K) (v : Z) (acc : list (K * Z)) (k' : K) :
  key_total eqb k' (agg_add eqb k v acc)
  = (key_total eqb k' acc + (if eqb k' k then v else 0))%Z.
Proof.
  unfold key_total.
  induction acc as [|[k0 s] acc IH]; simpl.
  - destruct (eqb k' k); simpl; lia.
  - destruct (eqb k k0) eqn:E; simpl.
    + apply eqb_eq in E. subst k0.
      destruct (eqb k' k); simpl; lia.
    + destruct (eqb k' k0); simpl; rewrite IH; lia.
Qed.

Lemma key_total_cons (k : K) (kv : K * Z) (rows : list (K * Z)) :
  key_total eqb k (kv :: rows)
  = ((if eqb k (fst kv) then snd kv else 0) + key_total eqb k rows)%Z.
Proof. unfold key_total. simpl. now destruct (eqb k (fst kv)). Qed.

Let step (acc : list (K * Z)) (kv : K * Z) : list (K * Z) :=
  agg_add eqb (fst kv) (snd kv) acc.

Lemma fold_agg_keys (rows acc : list (K * Z)) (k : K) :
  In k (map fst (fold_left step rows acc))
  <-> In k (map fst acc) \/ In k (map fst rows).
Proof.
  revert acc. induction rows as [|kv rows IH]; simpl; intros acc.
  - intuition.
  - rewrite IH. unfold step. rewrite agg_add_keys. intuition.
Qed.

Lemma fold_agg_NoDup (rows acc : list (K * Z)) :
  NoDup (map fst acc) -> NoDup (map fst (fold_left step rows acc)).
Proof.
  revert acc. induction rows as [|kv rows IH]; simpl; intros acc H.
  - exact H.
  - apply IH. now apply agg_add_NoDup.
Qed.

Lemma fold_agg_total (rows acc : list (K * Z)) (k : K) :
  key_total eqb k (fold_left step rows acc)
  = (key_total eqb k acc + key_total eqb k rows)%Z.
Proof.
  revert acc. induction rows as [|kv rows IH]; simpl; intros acc.
  - unfold key_total at 3. simpl. lia.
  - rewrite IH. unfold step. rewrite key_total_agg_add, key_total_cons. lia.
Qed.

Lemma key_total_unique (l : list (K * Z)) (k : K) (s : Z) :
  NoDup (map fst l) -> In (k, s) l -> key_total eqb k l = s.
Proof.
  induction l as [|[k0 s0] l IH]; simpl; intros Hd Hin; [contradiction|].
  inversion Hd as [|? ? Hn Hd']; subst.
  rewrite key_total_cons. simpl.
  assert (Hz : forall l', ~ In k (map fst l') -> key_total eqb k l' = 0%Z).
  { induction l' as [|[k1 s1] l' IH']; simpl; intros Hk; [reflexivity|].
    rewrite key_total_cons. simpl.
    destruct (eqb k k1) eqn:E.
    - apply eqb_eq in E. subst. exfalso. apply Hk. now left.
    - rewrite IH'; [lia|]. intros Hc. apply Hk. now right. }
  destruct Hin as [Heq|Hin].
  - inversion Heq; subst. rewrite eqb_refl, Hz by exact Hn. lia.
  - destruct (eqb k k0) eqn:E.
    + apply eqb_eq in E. subst k0. exfalso. apply Hn.
      change k with (fst (k, s)). now apply in_map.
    + rewrite (IH Hd' Hin). lia.
Qed.

Variable le : K -> K -> bool.

Lemma groupby_sum_NoDup (rows : list (K * Z)) :
  NoDup (map fst (groupby_sum eqb le rows)).
Proof.
  unfold groupby_sum. apply isort_map_NoDup.
  apply fold_agg_NoDup. constructor.
Qed.

Lemma groupby_sum_spec (rows : list (K * Z)) (k : K) (s : Z) :
  In (k, s) (groupby_sum eqb le rows)
  <-> In k (map fst rows) /\ s = key_total eqb k rows.
Proof.
  unfold groupby_sum. rewrite isort_In. unfold agg_sum. fold step.
  assert (Hd : NoDup (map fst (fold_left step rows []))).
  { apply fold_agg_NoDup. constructor. }
  assert (Ht := fold_agg_total rows [] k).
  change (key_total eqb k []) with 0%Z in Ht. rewrite Z.add_0_l in Ht.
  split.
  - intros Hin. split.
    + apply (in_map fst) in Hin. simpl in Hin.
      apply fold_agg_keys in Hin. destruct Hin as [[]|Hin]. exact Hin.
    + rewrite <- Ht. symmetry. now apply key_total_unique.
  - intros [Hin ->].
    assert (Hk : In k (map fst (fold_left step rows []))).
    { apply fold_agg_keys. now right. }
    apply in_map_iff in Hk. destruct Hk as [[k1 s1] [Hk1 Hin1]].
    simpl in Hk1. subst k1.
    rewrite <- Ht, (key_total_unique _ _ _ Hd Hin1). exact Hin1.
Qed.
End AggregateFacts.

(** * The table pipeline *)

Open Scope string_scope.

Lemma cell_eq_true (c : option string) (s : string) :
  cell_eq c s = true <-> c = Some s.
Proof.
  destruct c as [x|]; simpl.
  - rewrite String.eqb_eq. split; [now intros ->|now intros [= ->]].
  - split; discriminate.
Qed.

Lemma isin_true (s : string) (l : list string) : isin s l = true <-> In s l.
Proof.
  unfold isin. rewrite existsb_exists. split.
  - intros [x [Hin Heq]]. apply String.eqb_eq in Heq. now subst.
  - intros Hin. exists s. split; [exact Hin|apply String.eqb_refl].
Qed.

Lemma key_eqb_eq (k1 k2 : key) : key_eqb k1 k2 = true <-> k1 = k2.
Proof.
  destruct k1 as [a1 b1], k2 as [a2 b2]. unfold key_eqb. simpl.
  rewrite andb_true_iff, !String.eqb_eq.
  split; [now intros [-> ->]|now intros [= -> ->]].
Qed.

Lemma merge_In (left : list event) (right : list string) (e : event) :
  In e (merge left right) <-> In e left /\ In (user e) right.
Proof.
  unfold merge. rewrite in_flat_map. split.
  - intros [e0 [Hin0 Hin]]. apply in_map_iff in Hin.
    destruct Hin as [u [-> Hu]]. apply filter_In in Hu.
    destruct Hu as [Hu Heq]. apply String.eqb_eq in Heq. subst u. now split.
  - intros [Hin Hu]. exists e. split; [exact Hin|].
    apply in_map_iff. exists (user e). split; [reflexivity|].
    apply filter_In. split; [exact Hu|apply String.eqb_refl].
Qed.

Lemma filter_eqb_NoDup (x : string) (l : list string) :
  NoDup l -> filter (String.eqb x) l = if isin x l then [x] else [].
Proof.
  unfold isin. induction l as [|y l IH]; simpl; intros Hd; [reflexivity|].
  inversion Hd as [|? ? Hn Hd']; subst.
  destruct (x =? y) eqn:E; simpl.
  - apply String.eqb_eq in E. subst y. f_equal.
    rewrite (IH Hd').
    destruct (existsb (String.eqb x) l) eqn:Ex; [|reflexivity].
    apply existsb_exists in Ex. destruct Ex as [z [Hz Hxz]].
    apply String.eqb_eq in Hxz. subst z. contradiction.
  - now apply IH.
Qed.

Lemma merge_NoDup_filter (left : list event) (right : list string) :
  NoDup right -> merge left right = filter (fun e => isin (user e) right) left.
Proof.
  intros Hd. unfold merge.
  induction left as [|e left IH]; simpl; [reflexivity|].
  rewrite IH, (filter_eqb_NoDup _ _ Hd).
  now destruct (isin (user e) right).
Qed.

Lemma key_total_pair_plays (t : list event) (u a : string) :
  key_total key_eqb (u, a) (map (fun e => ((user e, artist e), plays e)) t)
  = pair_plays t u a.
Proof.
  unfold key_total, pair_plays.
  induction t as [|e t IH]; simpl; [reflexivity|].
  unfold key_eqb at 1. simpl.
  rewrite (String.eqb_sym u), (String.eqb_sym a).
  destruct (user e =? u); simpl; [|exact IH].
  destruct (artist e =? a); simpl; [|exact IH].
  now rewrite IH.
Qed.

Lemma key_total_total_plays (t : list event) (a : string) :
  key_total String.eqb a (map (fun e => (artist e, plays e)) t)
  = total_plays t a.
Proof.
  unfold key_total, total_plays.
  induction t as [|e t IH]; simpl; [reflexivity|].
  rewrite (String.eqb_sym a).
  destruct (artist e =? a); simpl; [|exact IH].
  now rewrite IH.
Qed.

Lemma groupby_user_artist_In (t : list event) (e : event) :
  In e (groupby_user_artist t)
  <-> (exists e0, In e0 t /\ user e0 = user e /\ artist e0 = artist e)
      /\ plays e = pair_plays t (user e) (artist e).
Proof.
  unfold groupby_user_artist. rewrite in_map_iff. split.
  - intros [[[u a] s] [<- Hin]]. simpl.
    apply (groupby_sum_spec _ _ key_eqb_eq) in Hin. destruct Hin as [Hk ->].
    rewrite key_total_pair_plays. split; [|reflexivity].
    rewrite map_map in Hk. apply in_map_iff in Hk.
    destruct Hk as [e0 [[= <- <-] Hin0]]. now exists e0.
  - intros [[e0 [Hin0 [Hu Ha]]] Hp].
    exists ((user e, artist e), plays e). split; [now destruct e|].
    apply (groupby_sum_spec _ _ key_eqb_eq). split.
    + rewrite map_map. apply in_map_iff. exists e0. simpl.
      split; [now rewrite Hu, Ha|exact Hin0].
    + now rewrite key_total_pair_plays.
Qed.

Lemma groupby_user_artist_NoDup (t : list event) :
  NoDup (map (fun e => (user e, artist e)) (groupby_user_artist t)).
Proof.
  unfold groupby_user_artist. rewrite map_map. simpl.
  rewrite (map_ext _ fst) by (now intros [[u a] s]).
  apply (groupby_sum_NoDup _ _ key_eqb_eq).
Qed.

Lemma total_plays_absent (t : list event) (a : string) :
  ~ In a (map artist t) -> total_plays t a = 0%Z.
Proof.
  unfold total_plays. induction t as [|e t IH]; simpl; intros H; [reflexivity|].
  destruct (artist e =? a) eqn:E.
  - apply String.eqb_eq in E. exfalso. apply H. now left.
  - apply IH. intros Hc. apply H. now right.
Qed.

Lemma top_artists_of_In (df_data : list event) (a : string) :
  In a (top_artists_of df_data) <-> (200000 < total_plays df_data a)%Z.
Proof.
  unfold top_artists_of, top_artist, df_top_artist, df_artist.
  rewrite in_map_iff. split.
  - intros [[a0 s] [Ha Hin]]. simpl in Ha. subst a0.
    apply isort_In, filter_In in Hin. destruct Hin as [Hin Hs]. simpl in Hs.
    apply (groupby_sum_spec _ _ String.eqb_eq) in Hin. destruct Hin as [_ ->].
    rewrite key_total_total_plays in Hs. now apply Z.ltb_lt.
  - intros Hlt. exists (a, total_plays df_data a). split; [reflexivity|].
    apply isort_In, filter_In. split; [|now apply Z.ltb_lt].
    apply (groupby_sum_spec _ _ String.eqb_eq). split.
    + rewrite map_map. simpl.
      destruct (in_dec string_dec a (map artist df_data)) as [Hin|Hn];
        [exact Hin|].
      rewrite (total_plays_absent _ _ Hn) in Hlt. lia.
    + now rewrite key_total_total_plays.
Qed.

Lemma restrict_artists_In (df : list event) (top : list string) (e : event) :
  In e (restrict_artists df top) <-> In e df /\ In (artist e) top.
Proof. unfold restrict_artists. now rewrite filter_In, isin_true. Qed.

(** C4.  The demographic filter keeps exactly the profile rows whose
    country is 'United Kingdom' and whose gender is 'f': the filtered
    table is the user column of those rows, in their order, and a user
    is in it if and only if such a row carries it. *)
Theorem demographic_filter_keeps_UK_female (df_user : list profile) :
  df_user_UK_female (df_user_UK df_user)
  = map profile_user
      (filter (fun r => cell_eq (country r) "United Kingdom"
                        && cell_eq (gender r) "f") df_user)
  /\ forall u,
       In u (df_user_UK_female (df_user_UK df_user))
       <-> exists r, In r df_user /\ profile_user r = u
                     /\ country r = Some "United Kingdom"
                     /\ gender r = Some "f".
Proof.
  assert (Heq : df_user_UK_female (df_user_UK df_user)
    = map profile_user
        (filter (fun r => cell_eq (country r) "United Kingdom"
                          && cell_eq (gender r) "f") df_user)).
  { unfold df_user_UK_female, df_user_UK.
    induction df_user as [|r t IH]; simpl; [reflexivity|].
    destruct (cell_eq (country r) "United Kingdom"); simpl; [|exact IH].
    destruct (cell_eq (gender r) "f"); simpl; [|exact IH].
    now rewrite IH. }
  split; [exact Heq|].
  intros u. rewrite Heq, in_map_iff. split.
  - intros [r [Hu Hin]]. apply filter_In in Hin. destruct Hin as [Hin Hb].
    apply andb_true_iff in Hb. destruct Hb as [Hc Hg].
    exists r. rewrite <- !cell_eq_true. auto.
  - intros [r [Hin [Hu [Hc Hg]]]]. exists r. split; [exact Hu|].
    apply filter_In. split; [exact Hin|].
    apply andb_true_iff. now rewrite !cell_eq_true.
Qed.

(** C5.  A row of the aggregated working table remains after the
    restriction to the most-played artists if and only if the total play
    count of its artist over the listening-events table is strictly
    greater than 200000. *)
Theorem restriction_keeps_artists_above_threshold
    (df_data : list event) (df_user : list profile) (e : event) :
  In e (df_isin df_data df_user)
  <-> In e (df_groupby df_data df_user)
      /\ (200000 < total_plays df_data (artist e))%Z.
Proof.
  unfold df_isin. now rewrite restrict_artists_In, top_artists_of_In.
Qed.

(** C6.  The join keeps exactly the listening events whose user is in
    the filtered demographic table (once each when that table lists no
    user twice, as a filter of the events); after the aggregation no (user,
    artist) pair has two rows, every pair of the joined table has its
    row, and the plays of that row is the sum of the plays of the joined
    rows of the pair. *)
Theorem merge_then_groupby (df_data : list event) (df_user : list profile) :
  (forall e, In e (df_merge df_data df_user)
             <-> In e df_data
                 /\ In (user e) (df_user_UK_female (df_user_UK df_user)))
  /\ (NoDup (df_user_UK_female (df_user_UK df_user)) ->
      df_merge df_data df_user
      = filter (fun e => isin (user e) (df_user_UK_female (df_user_UK df_user)))
          df_data)
  /\ NoDup (map (fun e => (user e, artist e)) (df_groupby df_data df_user))
  /\ (forall e, In e (df_groupby df_data df_user)
                <-> (exists e0, In e0 (df_merge df_data df_user)
                                /\ user e0 = user e /\ artist e0 = artist e)
                    /\ plays e = pair_plays (df_merge df_data df_user)
                                   (user e) (artist e)).
Proof.
  split; [|split; [|split]].
  - intros e. apply merge_In.
  - apply merge_NoDup_filter.
  - apply groupby_user_artist_NoDup.
  - intros e. apply groupby_user_artist_In.
Qed.

(** C10.  Membership in the top-artist list is decided by the total of
    the artist over the whole listening-events table, whatever the
    profile table is; an artist whose total there is at most 200000 is
    not in the list and has no row in the restricted working table. *)
Theorem top_artists_use_global_totals
    (df_data : list event) (df_user : list profile) (a : string) :
  (In a (top_artists_of df_data) <-> (200000 < total_plays df_data a)%Z)
  /\ ((total_plays df_data a <= 200000)%Z ->
      ~ In a (top_artists_of df_data)
      /\ forall e, In e (df_isin df_data df_user) -> artist e <> a).
Proof.
  split; [apply top_artists_of_In|].
  intros Hle. split.
  - rewrite top_artists_of_In. lia.
  - intros e Hin Ha. unfold df_isin in Hin.
    apply restrict_artists_In in Hin. destruct Hin as [_ Hin].
    apply top_artists_of_In in Hin. subst a. lia.
Qed.

(** An artist played 300000 times within the demographic subset (the
    profile of the user is listed twice, so the join doubles the 150000
    plays) and 150000 times in the listening-events table is excluded. *)
Lemma top_artists_use_global_totals_witness :
  let df_data := [Event "u" "a" 150000] in
  let df_user := [Profile "u" (Some "f") (Some "United Kingdom");
                  Profile "u" (Some "f") (Some "United Kingdom")] in
  (200000 < total_plays (df_groupby df_data df_user) "a")%Z
  /\ ~ In "a" (top_artists_of df_data)
  /\ forall e, In e (df_isin df_data df_user) -> artist e <> "a".
Proof.
  intros df_data df_user. split; [reflexivity|].
  apply (proj2 (top_artists_use_global_totals df_data df_user "a")).
  vm_compute. discriminate.
Defined.

(** * The pivot *)

Lemma duplicated_false (keys : list key) :
  duplicated keys = false <-> NoDup keys.
Proof.
  induction keys as [|k keys IH]; simpl.
  - split; [constructor|reflexivity].
  - rewrite orb_false_iff, IH. split.
    + intros [Hex Hd]. constructor; [|exact Hd].
      intros Hin. apply not_true_iff_false in Hex. apply Hex.
      apply existsb_exists. exists k. split; [exact Hin|now apply key_eqb_eq].
    + intros Hd. inversion Hd as [|? ? Hn Hd']; subst. split; [|exact Hd'].
      apply not_true_iff_false. intros Hex. apply existsb_exists in Hex.
      destruct Hex as [k' [Hin Heq]]. apply key_eqb_eq in Heq. now subst.
Qed.

Lemma unique_sorted_NoDup (l : list string) : NoDup (unique_sorted l).
Proof.
  unfold unique_sorted.
  rewrite <- (map_id (isort String.leb (nodup string_dec l))).
  apply isort_map_NoDup. rewrite map_id. apply NoDup_nodup.
Qed.

Lemma unique_sorted_In (l : list string) (x : string) :
  In x (unique_sorted l) <-> In x l.
Proof. unfold unique_sorted. now rewrite isort_In, nodup_In. Qed.

Lemma get_loc_Some (s : string) (labels : list string) (i : nat) :
  get_loc s labels = Some i -> nth_error labels i = Some s.
Proof.
  revert i. induction labels as [|x labels IH]; simpl; intros i H; [discriminate|].
  destruct (s =? x) eqn:E.
  - apply String.eqb_eq in E. injection H as <-. now subst.
  - destruct (get_loc s labels) as [i'|]; [|discriminate].
    injection H as <-. simpl. now apply IH.
Qed.

Lemma get_loc_In (s : string) (labels : list string) :
  In s labels -> exists i, get_loc s labels = Some i.
Proof.
  induction labels as [|x labels IH]; simpl; intros H; [contradiction|].
  destruct (s =? x) eqn:E; [now exists 0%nat|].
  destruct H as [->|H]; [now rewrite String.eqb_refl in E|].
  destruct (IH H) as [i ->]. now exists (S i).
Qed.

(** With distinct labels, a label is found at the one position it has. *)
Lemma get_loc_nth_error (s : string) (labels : list string) (i : nat) :
  NoDup labels -> nth_error labels i = Some s -> get_loc s labels = Some i.
Proof.
  intros Hd Hi.
  destruct (get_loc_In s labels (nth_error_In _ _ Hi)) as [i' Hi'].
  rewrite Hi'. f_equal.
  apply get_loc_Some in Hi'.
  apply (proj1 (NoDup_nth_error labels) Hd).
  - apply nth_error_Some. now rewrite Hi'.
  - now rewrite Hi, Hi'.
Qed.

Lemma find_unique_pair (df : list event) (e : event) :
  NoDup (map (fun e => (artist e, user e)) df) -> In e df ->
  find (fun e' => (artist e' =? artist e) && (user e' =? user e)) df = Some e.
Proof.
  induction df as [|e0 df IH]; simpl; intros Hd Hin; [contradiction|].
  inversion Hd as [|? ? Hn Hd']; subst.
  destruct Hin as [->|Hin].
  - now rewrite !String.eqb_refl.
  - destruct ((artist e0 =? artist e) && (user e0 =? user e)) eqn:E.
    + apply andb_true_iff in E. destruct E as [Ea Eu].
      apply String.eqb_eq in Ea, Eu. exfalso. apply Hn.
      rewrite Ea, Eu. apply (in_map (fun e => (artist e, user e))), Hin.
    + now apply IH.
Qed.

Lemma cell_at_present (df : list event) (e : event) :
  NoDup (map (fun e => (artist e, user e)) df) -> In e df ->
  cell_at df (artist e) (user e) = Some (plays e).
Proof.
  intros Hd Hin. unfold cell_at. now rewrite (find_unique_pair _ _ Hd Hin).
Qed.

Lemma cell_at_absent (df : list event) (a u : string) :
  (forall e, In e df -> artist e = a -> user e <> u) -> cell_at df a u = None.
Proof.
  intros H. unfold cell_at.
  destruct (find _ df) as [e|] eqn:E; [|reflexivity].
  apply find_some in E. destruct E as [Hin Hb].
  apply andb_true_iff in Hb. destruct Hb as [Ha Hu].
  apply String.eqb_eq in Ha, Hu. now destruct (H e Hin Ha).
Qed.

Lemma matrix_Ok (df : list event) (m : frame Z) :
  matrix df = Ok m ->
  NoDup (map (fun e => (artist e, user e)) df)
  /\ m = fillna 0
           (Frame (unique_sorted (map artist df)) (unique_sorted (map user df))
              (map (fun a => map (fun u => cell_at df a u)
                                 (unique_sorted (map user df)))
                   (unique_sorted (map artist df)))).
Proof.
  unfold matrix, pivot.
  destruct (duplicated _) eqn:E; simpl; [discriminate|].
  intros [= <-]. split; [now apply duplicated_false|reflexivity].
Qed.

Lemma matrix_unique_pairs (df : list event) :
  NoDup (map (fun e => (artist e, user e)) df) -> exists m, matrix df = Ok m.
Proof.
  intros Hd. unfold matrix, pivot.
  apply duplicated_false in Hd. rewrite Hd. simpl. eauto.
Qed.

Lemma matrix_well_labelled (df : list event) (m : frame Z) :
  matrix df = Ok m -> well_labelled m.
Proof.
  intros H. apply matrix_Ok in H. destruct H as [_ ->].
  unfold well_labelled, fillna. simpl.
  repeat split.
  - apply unique_sorted_NoDup.
  - apply unique_sorted_NoDup.
  - now rewrite !length_map.
  - rewrite map_map. apply Forall_forall. intros row Hrow.
    apply in_map_iff in Hrow. destruct Hrow as [a [<- _]].
    now rewrite !length_map.
Qed.

Lemma matrix_labels (df : list event) (m : frame Z) :
  matrix df = Ok m ->
  (forall a, In a (index m) <-> In a (map artist df))
  /\ (forall u, In u (columns m) <-> In u (map user df)).
Proof.
  intros H. destruct (matrix_Ok _ _ H) as [_ ->]. simpl.
  split; intros x; apply unique_sorted_In.
Qed.

Lemma matrix_entry (df : list event) (m : frame Z) (i j : nat) (a u : string) :
  matrix df = Ok m ->
  nth_error (index m) i = Some a -> nth_error (columns m) j = Some u ->
  nth_error (nth i (values m) []) j
  = Some (match cell_at df a u with Some x => x | None => 0%Z end).
Proof.
  intros H Hi Hj. apply matrix_Ok in H. destruct H as [_ ->].
  unfold fillna in *. simpl in *.
  rewrite map_map.
  erewrite nth_error_nth; [|rewrite nth_error_map, Hi; reflexivity].
  now rewrite !nth_error_map, Hj.
Qed.

Lemma matrix_loc (df : list event) (m : frame Z) (a u : string) :
  matrix df = Ok m -> In a (index m) -> In u (columns m) ->
  loc m a u = Some (match cell_at df a u with Some x => x | None => 0%Z end).
Proof.
  intros H Ha Hu. unfold loc.
  destruct (get_loc_In _ _ Ha) as [i Hi]. destruct (get_loc_In _ _ Hu) as [j Hj].
  rewrite Hi, Hj. apply get_loc_Some in Hi, Hj.
  now apply matrix_entry.
Qed.

(** With distinct labels, [loc] returns the entry of every position that
    carries the two labels. *)
Lemma well_labelled_loc (m : frame Z) (i j : nat) (a u : string) :
  well_labelled m ->
  nth_error (index m) i = Some a -> nth_error (columns m) j = Some u ->
  loc m a u = nth_error (nth i (values m) []) j.
Proof.
  intros [Hi [Hc _]] Ha Hu. unfold loc.
  now rewrite (get_loc_nth_error _ _ _ Hi Ha), (get_loc_nth_error _ _ _ Hc Hu).
Qed.

(** Dropping rows keeps a key column free of repetitions. *)
Lemma restrict_artists_keys (K : Type) (keyof : event -> K)
    (df : list event) (top : list string) :
  NoDup (map keyof df) -> NoDup (map keyof (restrict_artists df top)).
Proof.
  unfold restrict_artists. intros Hd.
  induction df as [|e df IH]; simpl; [constructor|].
  apply NoDup_cons_iff in Hd. destruct Hd as [Hfresh Hd].
  destruct (isin (artist e) top); simpl; [|now apply IH].
  apply NoDup_cons; [|now apply IH].
  intros Hin. apply Hfresh. apply in_map_iff in Hin.
  destruct Hin as [e' [Hk Hin]]. apply filter_In in Hin.
  rewrite <- Hk. apply in_map. tauto.
Qed.

Lemma NoDup_swap_keys (l : list event) :
  NoDup (map (fun e => (user e, artist e)) l) ->
  NoDup (map (fun e => (artist e, user e)) l).
Proof.
  induction l as [|x l IH]; simpl; intros Hd; [constructor|].
  inversion Hd as [|? ? Hn Hd']; subst.
  constructor; [|now apply IH].
  intros Hin. apply Hn. apply in_map_iff in Hin.
  destruct Hin as [y [[= Ha Hu] Hin]].
  apply in_map_iff. exists y. now rewrite Ha, Hu.
Qed.

Lemma df_isin_unique_pairs (df_data : list event) (df_user : list profile) :
  NoDup (map (fun e => (artist e, user e)) (df_isin df_data df_user)).
Proof.
  unfold df_isin.
  apply NoDup_swap_keys, restrict_artists_keys, groupby_user_artist_NoDup.
Qed.

(** C2, the pivot as the notebook runs it.  The pivot of the restricted
    working table succeeds and gives an artist-by-user table: one row
    per distinct artist, one column per distinct user, the entry of a
    row of the working table is its plays, and the entry of a pair with
    no row is 0. *)
Theorem pivot_is_artist_by_user (df_data : list event) (df_user : list profile) :
  exists m,
    matrix (df_isin df_data df_user) = Ok m
    /\ well_labelled m
    /\ (forall a, In a (index m) <-> In a (map artist (df_isin df_data df_user)))
    /\ (forall u, In u (columns m) <-> In u (map user (df_isin df_data df_user)))
    /\ (forall e, In e (df_isin df_data df_user) ->
                  loc m (artist e) (user e) = Some (plays e))
    /\ (forall a u, In a (index m) -> In u (columns m) ->
          (forall e, In e (df_isin df_data df_user) ->
                     artist e = a -> user e <> u) ->
          loc m a u = Some 0%Z).
Proof.
  pose proof (df_isin_unique_pairs df_data df_user) as Hd.
  destruct (matrix_unique_pairs _ Hd) as [m Hm].
  exists m. split; [exact Hm|].
  split; [now apply matrix_well_labelled with (df := df_isin df_data df_user)|].
  destruct (matrix_labels _ _ Hm) as [Hidx Hcol].
  repeat split; try apply Hidx; try apply Hcol.
  - intros e Hin.
    rewrite (matrix_loc _ _ (artist e) (user e) Hm).
    + now rewrite (cell_at_present _ _ Hd Hin).
    + apply Hidx. now apply in_map.
    + apply Hcol. now apply in_map.
  - intros a u Ha Hu Hno.
    rewrite (matrix_loc _ _ _ _ Hm Ha Hu). now rewrite (cell_at_absent _ _ _ Hno).
Qed.

(** C2 as stated fails: for one user with two artists the pivoted table
    has two rows, labelled by the artists, and one column, labelled by
    the user; its row labels are not the users of the table. *)
Lemma pivot_rows_are_not_users :
  let df := [Event "u1" "a1" 5; Event "u1" "a2" 7] in
  matrix df = Ok (Frame ["a1"; "a2"] ["u1"] [[5%Z]; [7%Z]])
  /\ ~ (forall m, matrix df = Ok m ->
          (forall u, In u (index m) <-> In u (map user df))
          /\ (forall a, In a (columns m) <-> In a (map artist df))).
Proof.
  intros df. split; [reflexivity|].
  intros H. destruct (H _ eq_refl) as [Hrows _].
  assert (Hin : In "a1" (map user df)) by (apply Hrows; simpl; auto).
  simpl in Hin. destruct Hin as [Hin|[Hin|[]]]; discriminate.
Qed.

(** * Arrays *)

Lemma nth_map_seq (A : Type) (f : nat -> A) (n i : nat) (d : A) :
  (i < n)%nat -> nth i (map f (seq 0 n)) d = f i.
Proof.
  intros H.
  rewrite (nth_indep _ d (f 0%nat)) by (now rewrite length_map, length_seq).
  rewrite (map_nth f (seq 0 n) 0%nat i), seq_nth by exact H. reflexivity.
Qed.

Lemma entry_build (r c : nat) (f : nat -> nat -> R) (i j : nat) :
  (i < r)%nat -> (j < c)%nat -> entry (build r c f) i j = f i j.
Proof.
  intros Hi Hj. unfold entry, build.
  rewrite (nth_map_seq _ (fun i => map (fun j => f i j) (seq 0 c))) by exact Hi.
  now apply nth_map_seq.
Qed.

Lemma build_has_shape (r c : nat) (f : nat -> nat -> R) :
  has_shape r c (build r c f).
Proof.
  unfold has_shape, build. split.
  - now rewrite length_map, length_seq.
  - apply Forall_forall. intros row H. apply in_map_iff in H.
    destruct H as [i [<- _]]. now rewrite length_map, length_seq.
Qed.

Lemma has_shape_nrows (r c : nat) (A : ndarray) : has_shape r c A -> nrows A = r.
Proof. now intros [H _]. Qed.

Lemma has_shape_ncols (r c : nat) (A : ndarray) :
  has_shape r c A -> (0 < r)%nat -> ncols A = c.
Proof.
  intros [Hr Hc] Hpos. destruct A as [|row A]; simpl in *; [lia|].
  now inversion Hc.
Qed.

Lemma has_shape_row (r c : nat) (A : ndarray) (i : nat) :
  has_shape r c A -> (i < r)%nat -> length (nth i A []) = c.
Proof.
  intros [Hr Hc] Hi. rewrite Forall_forall in Hc. apply Hc, nth_In. lia.
Qed.

Lemma sum_upto_S (n : nat) (f : nat -> R) :
  sum_upto (S n) f = f 0%nat + sum_upto n (fun l => f (S l)).
Proof.
  unfold sum_upto. simpl. now rewrite <- seq_shift, map_map.
Qed.

Lemma sum_upto_ext (n : nat) (f g : nat -> R) :
  (forall l, (l < n)%nat -> f l = g l) -> sum_upto n f = sum_upto n g.
Proof.
  intros H. unfold sum_upto. f_equal. apply map_ext_in.
  intros l Hl. apply in_seq in Hl. apply H. lia.
Qed.

Lemma Rsum_map_nth (f : R -> R) (row : list R) :
  Rsum (map f row) = sum_upto (length row) (fun l => f (nth l row 0)).
Proof.
  induction row as [|x row IH]; [reflexivity|].
  simpl length. rewrite sum_upto_S. simpl. now rewrite IH.
Qed.

Lemma broadcast_index_lt (n i : nat) : (i < n)%nat -> broadcast_index n i = i.
Proof.
  unfold broadcast_index. intros H.
  destruct (n =? 1)%nat eqn:E; [|reflexivity].
  apply Nat.eqb_eq in E. lia.
Qed.

Lemma broadcast_dim_same (n : nat) : broadcast_dim n n = Some n.
Proof. unfold broadcast_dim. now rewrite Nat.eqb_refl. Qed.

Lemma broadcast_dim_one_r (n : nat) : broadcast_dim n 1 = Some n.
Proof.
  unfold broadcast_dim. destruct (n =? 1)%nat eqn:E; [reflexivity|].
  now rewrite Nat.eqb_refl.
Qed.

Lemma broadcast_dim_one_l (n : nat) : broadcast_dim 1 n = Some n.
Proof.
  unfold broadcast_dim. destruct (1 =? n)%nat eqn:E; [|reflexivity].
  apply Nat.eqb_eq in E. now subst.
Qed.

(** * The item branch of [predict] *)

Lemma predict_item_entries (M S : ndarray) (U I : nat) :
  has_shape U I M -> has_shape I I S -> (0 < U)%nat ->
  exists P,
    predict M S "item" = Ok P
    /\ has_shape U I P
    /\ forall u i, (u < U)%nat -> (i < I)%nat ->
         entry P u i
         = sum_upto I (fun j => entry M u j * entry S j i)
           / sum_upto I (fun j => Rabs (entry S i j)).
Proof.
  intros HM HS HU.
  assert (HncM : ncols M = I) by now apply (has_shape_ncols U I).
  assert (HnrM : nrows M = U) by now apply (has_shape_nrows U I).
  assert (HnrS : nrows S = I) by now apply (has_shape_nrows I I).
  assert (HncS : ncols S = I).
  { destruct (Nat.eq_dec I 0) as [->|HI].
    - destruct HS as [HS _]. now destruct S.
    - apply (has_shape_ncols I I); [exact HS|lia]. }
  unfold predict. simpl String.eqb. cbv iota.
  unfold dot. rewrite HncM, HnrS, Nat.eqb_refl. simpl bind.
  unfold matmul. rewrite HnrM, HncS, HncM.
  set (num := build U I _).
  assert (Hnum : has_shape U I num) by apply build_has_shape.
  unfold elementwise.
  rewrite (has_shape_nrows U I num Hnum), (has_shape_ncols U I num Hnum HU).
  change (nrows [sum_axis1 (abs S)]) with 1%nat.
  change (ncols [sum_axis1 (abs S)]) with (length (sum_axis1 (abs S))).
  unfold sum_axis1 at 1 3, abs at 1 3. rewrite !length_map.
  destruct HS as [HlenS HrowS]. rewrite HlenS.
  rewrite broadcast_dim_one_r, broadcast_dim_same.
  eexists. split; [reflexivity|]. split; [apply build_has_shape|].
  intros u i Hu Hi. rewrite entry_build by assumption.
  rewrite !broadcast_index_lt by assumption.
  unfold broadcast_index at 1. simpl Nat.eqb. cbv iota.
  unfold num. rewrite entry_build by assumption.
  f_equal.
  unfold entry at 1. simpl nth at 2.
  unfold sum_axis1, abs. rewrite map_map.
  rewrite (nth_indep _ 0 (Rsum (map Rabs []))) by (rewrite length_map; lia).
  rewrite (map_nth (fun row => Rsum (map Rabs row)) S [] i).
  rewrite Rsum_map_nth.
  rewrite Forall_forall in HrowS. rewrite (HrowS (nth i S [])) by (apply nth_In; lia).
  reflexivity.
Qed.

(** * Shapes along the numeric cells *)

Lemma csr_matrix_shape (m : frame Z) :
  well_labelled m ->
  has_shape (length (index m)) (length (columns m)) (csr_matrix m).
Proof.
  intros [_ [_ [Hr Hc]]]. unfold has_shape, csr_matrix. split.
  - now rewrite length_map.
  - apply Forall_forall. intros row H. apply in_map_iff in H.
    destruct H as [row0 [<- Hin]]. rewrite length_map.
    rewrite Forall_forall in Hc. now apply Hc.
Qed.

Lemma transpose_shape (A : ndarray) :
  has_shape (ncols A) (nrows A) (transpose A).
Proof. apply build_has_shape. Qed.

Lemma map_map_shape (f : R -> R) (r c : nat) (A : ndarray) :
  has_shape r c A -> has_shape r c (map (map f) A).
Proof.
  intros [Hr Hc]. split.
  - now rewrite length_map.
  - apply Forall_forall. intros row H. apply in_map_iff in H.
    destruct H as [row0 [<- Hin]]. rewrite length_map.
    rewrite Forall_forall in Hc. now apply Hc.
Qed.

Lemma ncols_normalize (X : ndarray) : ncols (normalize X) = ncols X.
Proof.
  destruct X as [|row X]; [reflexivity|].
  simpl. unfold normalize_row. now rewrite length_map.
Qed.

Lemma cosine_distances_shape (X : ndarray) :
  (0 < ncols X)%nat -> has_shape (nrows X) (nrows X) (cosine_distances X).
Proof.
  intros Hc. unfold cosine_distances. apply map_map_shape.
  unfold cosine_similarity, matmul.
  assert (Hn : nrows (normalize X) = nrows X)
    by (unfold nrows, normalize; now rewrite length_map).
  rewrite Hn.
  rewrite (has_shape_ncols _ _ _ (transpose_shape (normalize X)))
    by (now rewrite ncols_normalize).
  rewrite Hn. apply build_has_shape.
Qed.

Lemma pairwise_distances_Ok (X S : ndarray) :
  pairwise_distances X = Ok S ->
  (0 < nrows X)%nat /\ (0 < ncols X)%nat /\ S = cosine_distances X.
Proof.
  unfold pairwise_distances.
  destruct (nrows X =? 0)%nat eqn:Er; simpl; [discriminate|].
  destruct (ncols X =? 0)%nat eqn:Ec; simpl; [discriminate|].
  intros [= <-]. apply Nat.eqb_neq in Er, Ec. repeat split; lia.
Qed.

(** * Runs of the notebook *)

(** One step of symbolic execution of the cells. *)
Ltac run_cells :=
  cbn [exec exec_cell bind read lookup assign String.eqb Ascii.eqb Bool.eqb
       as_events as_profiles as_user_gender as_users as_totals as_list
       as_frame as_array] in *.

(** A completed run went through every cell: the pivot, the two
    distance computations and the two predictions returned, and the
    name space holds their results. *)
Lemma run_Ok (df_data : list event) (df_user : list profile) (g : env) :
  run df_data df_user = Ok g ->
  exists m Si Su Pi Pu,
    matrix (df_isin df_data df_user) = Ok m
    /\ pairwise_distances (csr_matrix m) = Ok Si
    /\ pairwise_distances (transpose (csr_matrix m)) = Ok Su
    /\ predict (transpose (csr_matrix m)) Si "item" = Ok Pi
    /\ predict (transpose (csr_matrix m)) Su "user" = Ok Pu
    /\ g = [("user_prediction", VArray Pu); ("item_prediction", VArray Pi);
            ("user_similarity", VArray Su); ("item_similarity", VArray Si);
            ("matrix_sparse", VArray (csr_matrix m)); ("matrix", VFrame m);
            ("df", VEvents (df_isin df_data df_user));
            ("top_artist", VList (top_artists_of df_data));
            ("df_top_artist", VTotals (df_top_artist (df_artist df_data)));
            ("df_artist", VTotals (df_artist df_data));
            ("df", VEvents (df_groupby df_data df_user));
            ("df", VEvents (df_merge df_data df_user));
            ("df_user_UK_female",
             VUsers (df_user_UK_female (df_user_UK df_user)));
            ("df_user_UK", VUserGender (df_user_UK df_user));
            ("df_user", VProfiles df_user); ("df_data", VEvents df_data)].
Proof.
  unfold run, notebook.
  run_cells.
  fold (df_merge df_data df_user). fold (df_groupby df_data df_user).
  fold (top_artists_of df_data). fold (df_isin df_data df_user).
  destruct (matrix (df_isin df_data df_user)) as [m|] eqn:Em;
    [|discriminate].
  run_cells.
  destruct (pairwise_distances (csr_matrix m)) as [Si|] eqn:Ei;
    [|discriminate].
  run_cells.
  destruct (pairwise_distances (transpose (csr_matrix m))) as [Su|] eqn:Eu;
    [|discriminate].
  run_cells.
  destruct (predict (transpose (csr_matrix m)) Si "item") as [Pi|] eqn:Epi;
    [|discriminate].
  run_cells.
  destruct (predict (transpose (csr_matrix m)) Su "user") as [Pu|] eqn:Epu;
    [|discriminate].
  cbn [bind]. intros [= <-].
  exists m, Si, Su, Pi, Pu. repeat split; assumption.
Qed.

(** C3.  In a completed run, the item-based prediction for user [u] and
    artist [i] is the sum over the artists [j] of the plays of [u] for
    [j] (the entry of the transposed sparse matrix handed to [predict])
    times [item_similarity[j, i]], divided by the sum over [j] of the
    absolute values of [item_similarity[i, j]]. *)
Theorem item_prediction_is_weighted_average
    (df_data : list event) (df_user : list profile) (g : env)
    (X S P : ndarray) :
  run df_data df_user = Ok g ->
  lookup "matrix_sparse" g = Some (VArray X) ->
  lookup "item_similarity" g = Some (VArray S) ->
  lookup "item_prediction" g = Some (VArray P) ->
  forall u i, (u < ncols X)%nat -> (i < nrows X)%nat ->
    entry P u i
    = sum_upto (nrows X) (fun j => entry (transpose X) u j * entry S j i)
      / sum_upto (nrows X) (fun j => Rabs (entry S i j)).
Proof.
  intros Hrun HX HS HP u i Hu Hi.
  destruct (run_Ok _ _ _ Hrun)
    as [m [Si [Su [Pi [Pu [_ [Hsi [_ [Hpi [_ ->]]]]]]]]]].
  cbn in HX, HS, HP.
  injection HX as <-. injection HS as <-. injection HP as <-.
  destruct (pairwise_distances_Ok _ _ Hsi) as [Hr [Hc ->]].
  destruct (predict_item_entries (transpose (csr_matrix m))
              (cosine_distances (csr_matrix m))
              (ncols (csr_matrix m)) (nrows (csr_matrix m))
              (transpose_shape _) (cosine_distances_shape _ Hc) Hc)
    as [P' [HP' [_ Hentries]]].
  rewrite Hpi in HP'. injection HP' as <-.
  now apply Hentries.
Qed.

(** C9.  With a [type] other than 'user' and 'item' neither branch of
    [predict] binds [pred]: the call raises the unbound-local error and
    returns no prediction. *)
Theorem predict_other_type_is_unbound (M S : ndarray) (t : string) :
  t <> "user" -> t <> "item" ->
  predict M S t = Raise UnboundLocalError
  /\ forall P, predict M S t <> Ok P.
Proof.
  intros Hu Hi. apply String.eqb_neq in Hu, Hi.
  unfold predict. rewrite Hu, Hi. split; [reflexivity|discriminate].
Qed.

Lemma predict_other_type_is_unbound_witness :
  predict [[1; 2]] [[0; 1]; [1; 0]] "song" = Raise UnboundLocalError
  /\ forall P, predict [[1; 2]] [[0; 1]; [1; 0]] "song" <> Ok P.
Proof.
  apply predict_other_type_is_unbound; discriminate.
Defined.

(** [predict] returns a prediction only for the types 'user' and 'item'. *)
Lemma predict_Ok_type (M S P : ndarray) (t : string) :
  predict M S t = Ok P -> t = "user" \/ t = "item".
Proof.
  unfold predict.
  destruct (t =? "user") eqn:Eu; [apply String.eqb_eq in Eu; auto|].
  destruct (t =? "item") eqn:Ei; [apply String.eqb_eq in Ei; auto|].
  discriminate.
Qed.

(** * The matrix through the cells *)

Section Invariant.
Variable file_data : list event.
Variable file_profiles : list profile.

Lemma exec_cell_pivoted (c : cell) (g g' : env) :
  pivoted g -> exec_cell file_data file_profiles c g = Ok g' -> pivoted g'.
Proof.
  intros Hinv H m. destruct c; cbn [exec_cell] in H;
    repeat match type of H with
      | bind ?r _ = Ok _ => destruct r eqn:?; cbn [bind] in H; [|discriminate]
      end;
    injection H as <-; cbn [lookup assign String.eqb Ascii.eqb Bool.eqb];
    try apply Hinv.
  intros [= <-].
  match goal with E : read as_frame _ _ = Ok _ |- _ =>
    cbn in E; injection E as <- end.
  eauto.
Qed.

Lemma exec_pivoted (cells : list cell) (g g' : env) :
  pivoted g -> exec file_data file_profiles cells g = Ok g' -> pivoted g'.
Proof.
  revert g. induction cells as [|c cells IH]; cbn [exec]; intros g Hinv H.
  - now injection H as <-.
  - destruct (exec_cell file_data file_profiles c g) as [g1|] eqn:E;
      cbn [bind] in H; [|discriminate].
    apply (IH g1); [|exact H]. now apply (exec_cell_pivoted c g).
Qed.
End Invariant.

(** The cells up to the pivot always complete: the aggregation leaves
    one row per (user, artist) pair, so the pivot finds no duplicate. *)
Lemma pivot_cell_completes (df_data : list event) (df_user : list profile) :
  exists g m,
    exec df_data df_user (firstn 6 notebook) [] = Ok g
    /\ matrix (df_isin df_data df_user) = Ok m
    /\ lookup "matrix" g = Some (VFrame m).
Proof.
  destruct (matrix_unique_pairs _ (df_isin_unique_pairs df_data df_user))
    as [m Hm].
  cbn [firstn notebook]. run_cells.
  fold (df_merge df_data df_user). fold (df_groupby df_data df_user).
  fold (top_artists_of df_data). fold (df_isin df_data df_user).
  rewrite Hm. run_cells. eauto.
Qed.

(** C7.  The cells up to the pivot always complete and bind [matrix].
    Whatever cells have run, in whatever order, from a fresh name space:
    the frame bound to [matrix] is the pivot of a working table, its row
    labels are the pairwise distinct artists of that table and its
    column labels the pairwise distinct users, and a pair of labels
    addresses the entry of the one position that carries them. *)
Theorem matrix_labels_stay_unique
    (df_data : list event) (df_user : list profile) :
  (exists g m,
     exec df_data df_user (firstn 6 notebook) [] = Ok g
     /\ lookup "matrix" g = Some (VFrame m))
  /\ forall (cells : list cell) (g : env) (m : frame Z),
       exec df_data df_user cells [] = Ok g ->
       lookup "matrix" g = Some (VFrame m) ->
       well_labelled m
       /\ (exists t, matrix t = Ok m
                     /\ (forall a, In a (index m) <-> In a (map artist t))
                     /\ (forall u, In u (columns m) <-> In u (map user t)))
       /\ forall i j a u,
            nth_error (index m) i = Some a ->
            nth_error (columns m) j = Some u ->
            loc m a u = nth_error (nth i (values m) []) j.
Proof.
  split.
  - destruct (pivot_cell_completes df_data df_user) as [g [m [Hg [_ Hm]]]].
    eauto.
  - intros cells g m Hexec Hm.
    assert (Hinv : pivoted g).
    { apply (exec_pivoted df_data df_user cells []); [|exact Hexec].
      intros m0 H0. discriminate. }
    destruct (Hinv m Hm) as [t Ht].
    pose proof (matrix_well_labelled t m Ht) as Hwl.
    split; [exact Hwl|]. split.
    + exists t. split; [exact Ht|]. now apply matrix_labels.
    + intros i j a u Hi Hj. now apply well_labelled_loc.
Qed.

Lemma matrix_labels_stay_unique_witness :
  let df_data := [Event "u1" "a" 300000; Event "u2" "b" 300000;
                  Event "u2" "a" 100000; Event "u3" "a" 5] in
  let df_user := [Profile "u1" (Some "f") (Some "United Kingdom");
                  Profile "u2" (Some "f") (Some "United Kingdom");
                  Profile "u3" (Some "m") (Some "United Kingdom")] in
  exists g,
    run df_data df_user = Ok g
    /\ lookup "matrix" g
       = Some (VFrame (Frame ["a"; "b"] ["u1"; "u2"]
                         [[300000; 100000]; [0; 300000]]%Z))
    /\ well_labelled (Frame ["a"; "b"] ["u1"; "u2"]
                        [[300000; 100000]; [0; 300000]]%Z).
Proof.
  intros df_data df_user. eexists.
  split; [reflexivity|]. split; [reflexivity|].
  apply (proj2 (matrix_labels_stay_unique df_data df_user) notebook _
           (Frame ["a"; "b"] ["u1"; "u2"] [[300000; 100000]; [0; 300000]]%Z)
           eq_refl eq_refl).
Defined.

Lemma item_prediction_is_weighted_average_witness :
  let df_data := [Event "u1" "a" 300000; Event "u2" "b" 300000;
                  Event "u2" "a" 100000] in
  let df_user := [Profile "u1" (Some "f") (Some "United Kingdom");
                  Profile "u2" (Some "f") (Some "United Kingdom")] in
  exists g S P,
    run df_data df_user = Ok g
    /\ lookup "item_similarity" g = Some (VArray S)
    /\ lookup "item_prediction" g = Some (VArray P)
    /\ entry P 1 0
       = (100000 * entry S 0 0 + (300000 * entry S 1 0 + 0))
         / (Rabs (entry S 0 0) + (Rabs (entry S 0 1) + 0)).
Proof.
  intros df_data df_user. eexists. eexists. eexists.
  split; [reflexivity|]. split; [reflexivity|]. split; [reflexivity|].
  apply (item_prediction_is_weighted_average df_data df_user _
           [[300000; 100000]; [0; 300000]] _ _
           eq_refl eq_refl eq_refl eq_refl 1%nat 0%nat);
    simpl; lia.
Defined.

(** * The cosine computation *)

Lemma sum_upto_scal (n : nat) (c : R) (f : nat -> R) :
  sum_upto n (fun l => c * f l) = c * sum_upto n f.
Proof.
  revert f. induction n as [|n IH]; intros f.
  - unfold sum_upto. simpl. ring.
  - rewrite !sum_upto_S, IH. ring.
Qed.

Lemma spec_dot_product_sum (x y : list R) (k : nat) :
  length x = k -> length y = k ->
  spec_dot_product x y = sum_upto k (fun l => nth l x 0 * nth l y 0).
Proof.
  revert y k. unfold spec_dot_product.
  induction x as [|a x IH]; intros [|b y] k Hx Hy; simpl in *; subst k;
    try discriminate.
  - reflexivity.
  - injection Hy as Hy. rewrite sum_upto_S. simpl. f_equal.
    now apply IH.
Qed.

Lemma nth_normalize_row (x : list R) (l : nat) :
  norm x <> 0 -> nth l (normalize_row x) 0 = nth l x 0 / norm x.
Proof.
  intros Hn. unfold normalize_row.
  destruct (Req_dec_T (norm x) 0) as [E|_]; [contradiction|].
  destruct (Nat.lt_ge_cases l (length x)) as [Hl|Hl].
  - rewrite (nth_indep _ 0 (0 / norm x)) by (now rewrite length_map).
    apply (map_nth (fun v => v / norm x)).
  - rewrite !nth_overflow by (try rewrite length_map; lia).
    unfold Rdiv. ring.
Qed.

(** What the code computes: for two rows of non-zero norm, the entry of
    the cosine distance array is 1 minus their cosine similarity. *)
Lemma cosine_distances_entry (X : ndarray) (n k i j : nat) :
  has_shape n k X -> (0 < k)%nat -> (i < n)%nat -> (j < n)%nat ->
  norm (nth i X []) <> 0 -> norm (nth j X []) <> 0 ->
  entry (cosine_distances X) i j
  = 1 - spec_cosine_similarity (nth i X []) (nth j X []).
Proof.
  intros HX Hk Hi Hj Hni Hnj.
  assert (Hn : n = nrows X) by (symmetry; now apply (has_shape_nrows n k)).
  assert (Hc : ncols X = k) by (apply (has_shape_ncols n k); [exact HX|lia]).
  assert (HXn : has_shape n k (normalize X)).
  { destruct HX as [Hr Hrows]. split.
    - unfold normalize. now rewrite length_map.
    - apply Forall_forall. intros row H. apply in_map_iff in H.
      destruct H as [row0 [<- Hin]]. unfold normalize_row.
      rewrite length_map. rewrite Forall_forall in Hrows. now apply Hrows. }
  assert (Hrow : forall r, (r < n)%nat ->
            nth r (normalize X) [] = normalize_row (nth r X [])).
  { intros r Hr. unfold normalize.
    rewrite (nth_indep _ [] (normalize_row []))
      by (rewrite length_map; unfold nrows in Hn; lia).
    apply map_nth. }
  unfold cosine_distances, cosine_similarity, matmul.
  rewrite (has_shape_nrows n k _ HXn).
  rewrite (has_shape_ncols _ _ _ (transpose_shape (normalize X)))
    by (rewrite ncols_normalize; lia).
  rewrite (has_shape_nrows n k _ HXn), ncols_normalize, Hc.
  unfold build at 1. rewrite map_map.
  unfold entry at 1.
  rewrite (nth_map_seq _ _ n i []) by exact Hi.
  rewrite map_map.
  rewrite (nth_map_seq _ _ n j 0) by exact Hj.
  rewrite (sum_upto_ext k _
             (fun l => / (norm (nth i X []) * norm (nth j X []))
                       * (nth l (nth i X []) 0 * nth l (nth j X []) 0))).
  - rewrite sum_upto_scal.
    unfold spec_cosine_similarity.
    rewrite (spec_dot_product_sum _ _ k)
      by (apply (has_shape_row n k); assumption).
    unfold Rdiv. ring.
  - intros l Hl. unfold transpose.
    rewrite ncols_normalize, Hc, (has_shape_nrows n k _ HXn).
    rewrite entry_build by assumption.
    unfold entry. rewrite !Hrow by assumption.
    rewrite !nth_normalize_row by assumption.
    field. split; assumption.
Qed.

Lemma sqrt_axis (x : R) : 0 <= x -> sqrt (x * x + (0 * 0 + 0)) = x.
Proof.
  intros H. replace (x * x + (0 * 0 + 0)) with (x * x) by ring.
  now apply sqrt_square.
Qed.

Lemma sqrt_axis' (x : R) : 0 <= x -> sqrt (0 * 0 + (x * x + 0)) = x.
Proof.
  intros H. replace (0 * 0 + (x * x + 0)) with (x * x) by ring.
  now apply sqrt_square.
Qed.

(** C1, at two artists with no listener in common.  The notebook binds
    [item_similarity] to the cosine distances: the entry of an artist
    with itself is 0 and the entry of the two artists is 1, while the
    cosine similarity of an artist's vector with itself is 1 and that of
    the two vectors is 0. *)
Theorem item_similarity_holds_cosine_distances :
  let df_data := [Event "u1" "a" 300000; Event "u2" "b" 300000] in
  let df_user := [Profile "u1" (Some "f") (Some "United Kingdom");
                  Profile "u2" (Some "f") (Some "United Kingdom")] in
  exists g S,
    run df_data df_user = Ok g
    /\ lookup "matrix_sparse" g = Some (VArray [[300000; 0]; [0; 300000]])
    /\ lookup "item_similarity" g = Some (VArray S)
    /\ entry S 0 0 = 0
    /\ spec_cosine_similarity [300000; 0] [300000; 0] = 1
    /\ entry S 0 1 = 1
    /\ spec_cosine_similarity [300000; 0] [0; 300000] = 0.
Proof.
  intros df_data df_user.
  assert (Hna : norm [300000; 0] = 300000)
    by (unfold norm; simpl; apply sqrt_axis; lra).
  assert (Hnb : norm [0; 300000] = 300000)
    by (unfold norm; simpl; apply sqrt_axis'; lra).
  assert (Hsh : has_shape 2 2 [[300000; 0]; [0; 300000]])
    by (split; [reflexivity|repeat constructor]).
  assert (Haa : spec_cosine_similarity [300000; 0] [300000; 0] = 1).
  { unfold spec_cosine_similarity. rewrite Hna.
    unfold spec_dot_product. simpl. field. }
  assert (Hab : spec_cosine_similarity [300000; 0] [0; 300000] = 0).
  { unfold spec_cosine_similarity. rewrite Hna, Hnb.
    unfold spec_dot_product. simpl. field. }
  eexists. exists (cosine_distances [[300000; 0]; [0; 300000]]).
  split; [reflexivity|]. split; [reflexivity|]. split; [reflexivity|].
  split; [|split; [exact Haa|split; [|exact Hab]]].
  - rewrite (cosine_distances_entry _ 2 2 0 0 Hsh); simpl nth.
    + rewrite Haa. ring.
    + lia.
    + lia.
    + lia.
    + rewrite Hna. lra.
    + rewrite Hna. lra.
  - rewrite (cosine_distances_entry _ 2 2 0 1 Hsh); simpl nth.
    + rewrite Hab. ring.
    + lia.
    + lia.
    + lia.
    + rewrite Hna. lra.
    + rewrite Hnb. lra.
Qed.

(** * The user branch of [predict] and the completion of a run *)

Lemma mean_axis1_shape (M : ndarray) : has_shape (nrows M) 1 (mean_axis1 M).
Proof.
  unfold has_shape, mean_axis1, nrows. split.
  - now rewrite length_map.
  - apply Forall_forall. intros row H. apply in_map_iff in H.
    now destruct H as [row0 [<- _]].
Qed.

Lemma predict_user_Ok (M S : ndarray) (U I : nat) :
  has_shape U I M -> has_shape U U S -> (0 < U)%nat ->
  exists P, predict M S "user" = Ok P /\ has_shape U I P.
Proof.
  intros HM HS HU.
  assert (HncM : ncols M = I) by now apply (has_shape_ncols U I).
  assert (HnrM : nrows M = U) by now apply (has_shape_nrows U I).
  assert (HnrS : nrows S = U) by now apply (has_shape_nrows U U).
  assert (HncS : ncols S = U) by now apply (has_shape_ncols U U).
  pose proof (mean_axis1_shape M) as Hmean. rewrite HnrM in Hmean.
  assert (Hden : has_shape U 1 (transpose [sum_axis1 (abs S)])).
  { unfold transpose. simpl ncols. simpl nrows.
    unfold sum_axis1, abs. rewrite !length_map.
    destruct HS as [-> _]. apply build_has_shape. }
  unfold predict. simpl String.eqb. cbv iota.
  unfold elementwise at 1.
  rewrite HnrM, HncM, (has_shape_nrows U 1 _ Hmean),
    (has_shape_ncols U 1 _ Hmean HU), broadcast_dim_same, broadcast_dim_one_r.
  cbn [bind]. set (diff := build U I _).
  assert (Hdiff : has_shape U I diff) by apply build_has_shape.
  unfold dot. rewrite HncS, (has_shape_nrows U I _ Hdiff), Nat.eqb_refl.
  cbn [bind]. unfold matmul.
  rewrite HnrS, HncS, (has_shape_ncols U I _ Hdiff HU).
  set (num := build U I _).
  assert (Hnum : has_shape U I num) by apply build_has_shape.
  unfold elementwise at 1.
  rewrite (has_shape_nrows U I _ Hnum), (has_shape_ncols U I _ Hnum HU),
    (has_shape_nrows U 1 _ Hden), (has_shape_ncols U 1 _ Hden HU),
    broadcast_dim_same, broadcast_dim_one_r.
  cbn [bind]. set (quot := build U I _).
  assert (Hquot : has_shape U I quot) by apply build_has_shape.
  unfold elementwise.
  rewrite (has_shape_nrows U I _ Hquot), (has_shape_ncols U I _ Hquot HU),
    (has_shape_nrows U 1 _ Hmean), (has_shape_ncols U 1 _ Hmean HU),
    broadcast_dim_same, broadcast_dim_one_l.
  eexists. split; [reflexivity|apply build_has_shape].
Qed.

Lemma pairwise_distances_nonempty (X : ndarray) :
  (0 < nrows X)%nat -> (0 < ncols X)%nat ->
  pairwise_distances X = Ok (cosine_distances X).
Proof.
  intros Hr Hc. unfold pairwise_distances.
  destruct (nrows X =? 0)%nat eqn:Er; [apply Nat.eqb_eq in Er; lia|].
  destruct (ncols X =? 0)%nat eqn:Ec; [apply Nat.eqb_eq in Ec; lia|].
  reflexivity.
Qed.

(** The binding cells complete exactly when the restricted working
    table has a row; on an empty table the distance computation refuses
    the empty array. *)
Lemma run_completes_iff (df_data : list event) (df_user : list profile) :
  (exists g, run df_data df_user = Ok g) <-> df_isin df_data df_user <> [].
Proof.
  split.
  - intros [g Hrun] Hempty.
    destruct (run_Ok _ _ _ Hrun) as [m [Si [_ [_ [_ [Hm [Hsi _]]]]]]].
    rewrite Hempty in Hm. injection Hm as <-. discriminate.
  - intros Hne.
    destruct (matrix_unique_pairs _ (df_isin_unique_pairs df_data df_user))
      as [m Hm].
    pose proof (matrix_well_labelled _ _ Hm) as Hwl.
    destruct (matrix_labels _ _ Hm) as [Hidx Hcol].
    destruct (df_isin df_data df_user) as [|e df] eqn:Edf; [contradiction|].
    assert (Hr : (0 < length (index m))%nat).
    { destruct (index m) as [|a idx] eqn:E; [|simpl; lia].
      destruct (proj2 (Hidx (artist e))). now left. }
    assert (Hc : (0 < length (columns m))%nat).
    { destruct (columns m) as [|u cols] eqn:E; [|simpl; lia].
      destruct (proj2 (Hcol (user e))). now left. }
    pose proof (csr_matrix_shape m Hwl) as HX.
    set (X := csr_matrix m) in *.
    assert (HnrX : nrows X = length (index m))
      by now apply (has_shape_nrows _ (length (columns m))).
    assert (HncX : ncols X = length (columns m))
      by now apply (has_shape_ncols (length (index m))).
    pose proof (transpose_shape X) as HT. rewrite HnrX, HncX in HT.
    assert (HnrT : nrows (transpose X) = length (columns m))
      by now apply (has_shape_nrows _ (length (index m))).
    assert (HncT : ncols (transpose X) = length (index m))
      by now apply (has_shape_ncols (length (columns m))).
    assert (Hsi : pairwise_distances X = Ok (cosine_distances X))
      by (apply pairwise_distances_nonempty; lia).
    assert (Hsu : pairwise_distances (transpose X)
                  = Ok (cosine_distances (transpose X)))
      by (apply pairwise_distances_nonempty; lia).
    pose proof (cosine_distances_shape X ltac:(lia)) as HSi.
    pose proof (cosine_distances_shape (transpose X) ltac:(lia)) as HSu.
    rewrite HnrX in HSi. rewrite HnrT in HSu.
    destruct (predict_item_entries _ _ _ _ HT HSi Hc) as [Pi [Hpi _]].
    destruct (predict_user_Ok _ _ _ _ HT HSu Hc) as [Pu [Hpu _]].
    unfold run, notebook. run_cells.
    fold (df_merge df_data df_user). fold (df_groupby df_data df_user).
    fold (top_artists_of df_data). fold (df_isin df_data df_user).
    rewrite Edf, Hm. run_cells. fold X.
    rewrite Hsi. run_cells. rewrite Hsu. run_cells.
    rewrite Hpi. run_cells. rewrite Hpu. run_cells. eauto.
Qed.

(** * The user branch of [predict], entry by entry *)

Lemma entry_mean_axis1 (M : ndarray) (U I v : nat) :
  has_shape U I M -> (0 < U)%nat -> (v < U)%nat ->
  entry (mean_axis1 M) v 0 = sum_upto I (fun j => entry M v j) / INR I.
Proof.
  intros HM HU Hv.
  assert (HncM : ncols M = I) by now apply (has_shape_ncols U I).
  unfold entry at 1, mean_axis1.
  rewrite (nth_indep _ [] [Rsum [] / INR (ncols M)])
    by (rewrite length_map; destruct HM as [-> _]; exact Hv).
  rewrite (map_nth (fun row => [Rsum row / INR (ncols M)]) M [] v).
  simpl nth. rewrite HncM. f_equal.
  rewrite <- (map_id (nth v M [])) at 1.
  rewrite (Rsum_map_nth (fun x => x)), (has_shape_row U I M v HM Hv).
  reflexivity.
Qed.

Lemma entry_row_sums (S : ndarray) (U u : nat) :
  has_shape U U S -> (u < U)%nat ->
  nth u (sum_axis1 (abs S)) 0 = sum_upto U (fun v => Rabs (entry S u v)).
Proof.
  intros HS Hu. unfold sum_axis1, abs. rewrite map_map.
  rewrite (nth_indep _ 0 (Rsum (map Rabs [])))
    by (rewrite length_map; destruct HS as [-> _]; exact Hu).
  rewrite (map_nth (fun row => Rsum (map Rabs row)) S [] u).
  rewrite Rsum_map_nth, (has_shape_row U U S u HS Hu). reflexivity.
Qed.

Lemma predict_user_entries (M S : ndarray) (U I : nat) :
  has_shape U I M -> has_shape U U S -> (0 < U)%nat ->
  exists P,
    predict M S "user" = Ok P
    /\ has_shape U I P
    /\ forall u i, (u < U)%nat -> (i < I)%nat ->
         entry P u i
         = sum_upto I (fun j => entry M u j) / INR I
           + sum_upto U (fun v =>
               entry S u v
               * (entry M v i - sum_upto I (fun j => entry M v j) / INR I))
             / sum_upto U (fun v => Rabs (entry S u v)).
Proof.
  intros HM HS HU.
  assert (HncM : ncols M = I) by now apply (has_shape_ncols U I).
  assert (HnrM : nrows M = U) by now apply (has_shape_nrows U I).
  assert (HnrS : nrows S = U) by now apply (has_shape_nrows U U).
  assert (HncS : ncols S = U) by now apply (has_shape_ncols U U).
  pose proof (mean_axis1_shape M) as Hmean. rewrite HnrM in Hmean.
  assert (Hlen : length (sum_axis1 (abs S)) = U).
  { unfold sum_axis1, abs. rewrite !length_map. now destruct HS. }
  assert (Hden : has_shape U 1 (transpose [sum_axis1 (abs S)])).
  { unfold transpose. simpl ncols. simpl nrows. rewrite Hlen.
    apply build_has_shape. }
  unfold predict. simpl String.eqb. cbv iota.
  unfold elementwise at 1.
  rewrite HnrM, HncM, (has_shape_nrows U 1 _ Hmean),
    (has_shape_ncols U 1 _ Hmean HU), broadcast_dim_same, broadcast_dim_one_r.
  cbn [bind]. set (diff := build U I _).
  assert (Hdiff : has_shape U I diff) by apply build_has_shape.
  unfold dot. rewrite HncS, (has_shape_nrows U I _ Hdiff), Nat.eqb_refl.
  cbn [bind]. unfold matmul.
  rewrite HnrS, HncS, (has_shape_ncols U I _ Hdiff HU).
  set (num := build U I _).
  assert (Hnum : has_shape U I num) by apply build_has_shape.
  unfold elementwise at 1.
  rewrite (has_shape_nrows U I _ Hnum), (has_shape_ncols U I _ Hnum HU),
    (has_shape_nrows U 1 _ Hden), (has_shape_ncols U 1 _ Hden HU),
    broadcast_dim_same, broadcast_dim_one_r.
  cbn [bind]. set (quot := build U I _).
  assert (Hquot : has_shape U I quot) by apply build_has_shape.
  unfold elementwise.
  rewrite (has_shape_nrows U I _ Hquot), (has_shape_ncols U I _ Hquot HU),
    (has_shape_nrows U 1 _ Hmean), (has_shape_ncols U 1 _ Hmean HU),
    broadcast_dim_same, broadcast_dim_one_l.
  eexists. split; [reflexivity|]. split; [apply build_has_shape|].
  intros u i Hu Hi.
  assert (H1 : forall k, broadcast_index 1 k = 0%nat) by reflexivity.
  rewrite entry_build by assumption.
  rewrite H1, (broadcast_index_lt U u Hu), (broadcast_index_lt I i Hi).
  unfold quot. rewrite entry_build by assumption.
  rewrite H1, (broadcast_index_lt U u Hu), (broadcast_index_lt I i Hi).
  rewrite (entry_mean_axis1 M U I u HM HU Hu).
  f_equal. f_equal.
  - unfold num. rewrite entry_build by assumption.
    apply sum_upto_ext. intros v Hv. f_equal.
    unfold diff. rewrite entry_build by assumption.
    rewrite H1, (broadcast_index_lt U v Hv), (broadcast_index_lt I i Hi).
    now rewrite (entry_mean_axis1 M U I v HM HU Hv).
  - unfold transpose. simpl ncols. simpl nrows. rewrite Hlen.
    rewrite entry_build by (assumption || lia).
    unfold entry at 1. simpl nth at 2.
    now apply entry_row_sums.
Qed.

(** * Mismatched arguments of [predict] *)



(** * The arrays of a completed run *)

Lemma unique_sorted_length (l : list string) :
  length (unique_sorted l) = length (nodup string_dec l).
Proof. unfold unique_sorted. apply isort_length. Qed.

(** What a completed run has bound, with the shapes of its arrays. *)
Lemma run_artifacts (df_data : list event) (df_user : list profile) (g : env) :
  run df_data df_user = Ok g ->
  exists m Pi Pu,
    matrix (df_isin df_data df_user) = Ok m
    /\ lookup "matrix" g = Some (VFrame m)
    /\ lookup "matrix_sparse" g = Some (VArray (csr_matrix m))
    /\ lookup "item_similarity" g
       = Some (VArray (cosine_distances (csr_matrix m)))
    /\ lookup "user_similarity" g
       = Some (VArray (cosine_distances (transpose (csr_matrix m))))
    /\ lookup "item_prediction" g = Some (VArray Pi)
    /\ lookup "user_prediction" g = Some (VArray Pu)
    /\ predict (transpose (csr_matrix m)) (cosine_distances (csr_matrix m))
         "item" = Ok Pi
    /\ predict (transpose (csr_matrix m))
         (cosine_distances (transpose (csr_matrix m))) "user" = Ok Pu
    /\ has_shape (length (index m)) (length (columns m)) (csr_matrix m)
    /\ (0 < length (index m))%nat /\ (0 < length (columns m))%nat.
Proof.
  intros Hrun.
  destruct (run_Ok _ _ _ Hrun)
    as [m [Si [Su [Pi [Pu [Hm [Hsi [Hsu [Hpi [Hpu ->]]]]]]]]]].
  destruct (pairwise_distances_Ok _ _ Hsi) as [Hr [Hc ->]].
  destruct (pairwise_distances_Ok _ _ Hsu) as [_ [_ ->]].
  pose proof (csr_matrix_shape m (matrix_well_labelled _ _ Hm)) as HX.
  assert (Hr' : (0 < length (index m))%nat)
    by (rewrite <- (has_shape_nrows _ _ _ HX); exact Hr).
  assert (Hc' : (0 < length (columns m))%nat)
    by (rewrite <- (has_shape_ncols _ _ _ HX Hr'); exact Hc).
  exists m, Pi, Pu.
  repeat split; try reflexivity; try assumption; apply HX.
Qed.

(** A run on four listening events of two users and three artists, for
    the instances below. *)
Lemma sample_run :
  let df_data := [Event "u1" "a" 300000; Event "u2" "b" 300000;
                  Event "u2" "a" 100000; Event "u1" "c" 400000] in
  let df_user := [Profile "u1" (Some "f") (Some "United Kingdom");
                  Profile "u2" (Some "f") (Some "United Kingdom")] in
  let X := [[300000; 100000]; [0; 300000]; [400000; 0]] in
  exists g Pi Pu,
    run df_data df_user = Ok g
    /\ lookup "matrix" g
       = Some (VFrame (Frame ["a"; "b"; "c"] ["u1"; "u2"]
                         [[300000; 100000]; [0; 300000]; [400000; 0]]%Z))
    /\ lookup "matrix_sparse" g = Some (VArray X)
    /\ lookup "item_similarity" g = Some (VArray (cosine_distances X))
    /\ lookup "user_similarity" g
       = Some (VArray (cosine_distances (transpose X)))
    /\ lookup "item_prediction" g = Some (VArray Pi)
    /\ lookup "user_prediction" g = Some (VArray Pu).
Proof.
  intros df_data df_user X.
  assert (Hne : df_isin df_data df_user <> []) by (vm_compute; discriminate).
  destruct (proj2 (run_completes_iff df_data df_user) Hne) as [g Hrun].
  destruct (run_artifacts _ _ _ Hrun)
    as [m [Pi [Pu [Hm [Hm' [HX [HSi [HSu [HPi [HPu _]]]]]]]]]].
  vm_compute in Hm. injection Hm as <-.
  exists g, Pi, Pu. repeat split; assumption.
Qed.

(** X1.  In a completed run the user-based prediction for user [u] and
    artist [i] is the mean of the plays of [u] over the artists, plus
    the sum over the users [v] of [user_similarity[u, v]] times the
    deviation of the plays of [v] for [i] from the mean of [v], divided
    by the sum over [v] of the absolute values of
    [user_similarity[u, v]]. *)
Theorem user_prediction_is_mean_plus_weighted_deviation
    (df_data : list event) (df_user : list profile) (g : env)
    (X S P : ndarray) :
  run df_data df_user = Ok g ->
  lookup "matrix_sparse" g = Some (VArray X) ->
  lookup "user_similarity" g = Some (VArray S) ->
  lookup "user_prediction" g = Some (VArray P) ->
  forall u i, (u < ncols X)%nat -> (i < nrows X)%nat ->
    entry P u i
    = sum_upto (nrows X) (fun j => entry (transpose X) u j) / INR (nrows X)
      + sum_upto (ncols X) (fun v =>
          entry S u v
          * (entry (transpose X) v i
             - sum_upto (nrows X) (fun j => entry (transpose X) v j)
               / INR (nrows X)))
        / sum_upto (ncols X) (fun v => Rabs (entry S u v)).
Proof.
  intros Hrun HX HS HP u i Hu Hi.
  destruct (run_artifacts _ _ _ Hrun)
    as [m [Pi [Pu [_ [_ [HX' [_ [HS' [_ [HP' [_ [Hpu [Hsh [Hr Hc]]]]]]]]]]]]]].
  rewrite HX' in HX. injection HX as <-.
  rewrite HS' in HS. injection HS as <-.
  rewrite HP' in HP. injection HP as <-.
  assert (HnrX : nrows (csr_matrix m) = length (index m))
    by now apply (has_shape_nrows _ (length (columns m))).
  assert (HncX : ncols (csr_matrix m) = length (columns m))
    by now apply (has_shape_ncols (length (index m))).
  pose proof (transpose_shape (csr_matrix m)) as HT.
  pose proof (cosine_distances_shape (transpose (csr_matrix m))) as HSu.
  rewrite (has_shape_ncols _ _ _ HT) in HSu by lia.
  rewrite (has_shape_nrows _ _ _ HT) in HSu.
  destruct (predict_user_entries _ _ _ _ HT (HSu ltac:(lia)) ltac:(lia))
    as [P' [HP'' [_ Hentries]]].
  rewrite Hpu in HP''. injection HP'' as <-.
  now apply Hentries.
Qed.

Lemma user_prediction_is_mean_plus_weighted_deviation_witness :
  let df_data := [Event "u1" "a" 300000; Event "u2" "b" 300000;
                  Event "u2" "a" 100000; Event "u1" "c" 400000] in
  let df_user := [Profile "u1" (Some "f") (Some "United Kingdom");
                  Profile "u2" (Some "f") (Some "United Kingdom")] in
  let X := [[300000; 100000]; [0; 300000]; [400000; 0]] in
  exists g S P,
    run df_data df_user = Ok g
    /\ lookup "user_similarity" g = Some (VArray S)
    /\ lookup "user_prediction" g = Some (VArray P)
    /\ entry P 1 0
       = sum_upto 3 (fun j => entry (transpose X) 1 j) / INR 3
         + sum_upto 2 (fun v =>
             entry S 1 v
             * (entry (transpose X) v 0
                - sum_upto 3 (fun j => entry (transpose X) v j) / INR 3))
           / sum_upto 2 (fun v => Rabs (entry S 1 v)).
Proof.
  intros df_data df_user X.
  destruct sample_run as [g [Pi [Pu [Hrun [Hm [HX [HSi [HSu [HPi HPu]]]]]]]]].
  exists g, (cosine_distances (transpose X)), Pu.
  repeat split; try assumption.
  apply (user_prediction_is_mean_plus_weighted_deviation df_data df_user g
           X _ Pu Hrun HX HSu HPu 1%nat 0%nat); simpl; lia.
Defined.

(** X2.  In a completed run the sparse matrix has one row per distinct
    artist and one column per distinct user of the restricted working
    table, [item_similarity] is square over the artists,
    [user_similarity] is square over the users, and both predictions
    have one row per user and one column per artist; there is at least
    one artist and one user. *)
Theorem run_array_shapes
    (df_data : list event) (df_user : list profile) (g : env) :
  run df_data df_user = Ok g ->
  let artists :=
    length (nodup string_dec (map artist (df_isin df_data df_user))) in
  let users :=
    length (nodup string_dec (map user (df_isin df_data df_user))) in
  exists X Si Su Pi Pu,
    lookup "matrix_sparse" g = Some (VArray X)
    /\ lookup "item_similarity" g = Some (VArray Si)
    /\ lookup "user_similarity" g = Some (VArray Su)
    /\ lookup "item_prediction" g = Some (VArray Pi)
    /\ lookup "user_prediction" g = Some (VArray Pu)
    /\ (0 < artists)%nat /\ (0 < users)%nat
    /\ has_shape artists users X
    /\ has_shape artists artists Si
    /\ has_shape users users Su
    /\ has_shape users artists Pi
    /\ has_shape users artists Pu.
Proof.
  intros Hrun artists users.
  destruct (run_artifacts _ _ _ Hrun)
    as [m [Pi [Pu [Hm [_ [HX [HSi [HSu [HPi [HPu [Hpi [Hpu [Hsh [Hr Hc]]]]]]]]]]]]]].
  assert (Ha : length (index m) = artists).
  { destruct (matrix_Ok _ _ Hm) as [_ ->]. simpl. apply unique_sorted_length. }
  assert (Hu : length (columns m) = users).
  { destruct (matrix_Ok _ _ Hm) as [_ ->]. simpl. apply unique_sorted_length. }
  rewrite Ha, Hu in *.
  assert (HnrX : nrows (csr_matrix m) = artists)
    by now apply (has_shape_nrows _ users).
  assert (HncX : ncols (csr_matrix m) = users)
    by now apply (has_shape_ncols artists).
  pose proof (transpose_shape (csr_matrix m)) as HT.
  rewrite HnrX, HncX in HT.
  pose proof (cosine_distances_shape (csr_matrix m)) as HSi'.
  rewrite HnrX, HncX in HSi'.
  pose proof (cosine_distances_shape (transpose (csr_matrix m))) as HSu'.
  rewrite (has_shape_ncols _ _ _ HT Hc), (has_shape_nrows _ _ _ HT) in HSu'.
  destruct (predict_item_entries _ _ _ _ HT (HSi' Hc) Hc) as [Pi' [E1 [S1 _]]].
  destruct (predict_user_entries _ _ _ _ HT (HSu' Hr) Hc) as [Pu' [E2 [S2 _]]].
  rewrite Hpi in E1. injection E1 as <-.
  rewrite Hpu in E2. injection E2 as <-.
  exists (csr_matrix m), (cosine_distances (csr_matrix m)),
    (cosine_distances (transpose (csr_matrix m))), Pi, Pu.
  repeat split; try assumption; try (apply Hsh); try (apply S1);
    try (apply S2); try (apply (HSi' Hc)); try (apply (HSu' Hr)).
Qed.

Lemma run_array_shapes_witness :
  let df_data := [Event "u1" "a" 300000; Event "u2" "b" 300000;
                  Event "u2" "a" 100000; Event "u1" "c" 400000] in
  let df_user := [Profile "u1" (Some "f") (Some "United Kingdom");
                  Profile "u2" (Some "f") (Some "United Kingdom")] in
  let X := [[300000; 100000]; [0; 300000]; [400000; 0]] in
  exists g Si Su Pi Pu,
    run df_data df_user = Ok g
    /\ lookup "matrix_sparse" g = Some (VArray X)
    /\ lookup "item_similarity" g = Some (VArray Si)
    /\ lookup "user_similarity" g = Some (VArray Su)
    /\ lookup "item_prediction" g = Some (VArray Pi)
    /\ lookup "user_prediction" g = Some (VArray Pu)
    /\ has_shape 3 2 X /\ has_shape 3 3 Si /\ has_shape 2 2 Su
    /\ has_shape 2 3 Pi /\ has_shape 2 3 Pu.
Proof.
  intros df_data df_user X.
  destruct sample_run as [g [Pi [Pu [Hrun [Hm [HX [HSi [HSu [HPi HPu]]]]]]]]].
  destruct (run_array_shapes df_data df_user g Hrun)
    as [X' [Si [Su [Pi' [Pu' [H1 [H2 [H3 [H4 [H5 [_ [_ H]]]]]]]]]]]].
  rewrite HX in H1. injection H1 as <-.
  exists g, Si, Su, Pi', Pu'.
  repeat (split; [assumption|]). exact H.
Defined.



(** * Symmetry and diagonal of the cosine distances *)

Lemma nrows_normalize (X : ndarray) : nrows (normalize X) = nrows X.
Proof. unfold nrows, normalize. now rewrite length_map. Qed.

(** The entry of the distance array before any algebra: the product of
    two normalised rows, negated, plus 1. *)
Lemma cosine_distances_entry_products (X : ndarray) (n k i j : nat) :
  has_shape n k X -> (0 < k)%nat -> (i < n)%nat -> (j < n)%nat ->
  entry (cosine_distances X) i j
  = sum_upto k (fun l => entry (normalize X) i l * entry (normalize X) j l)
    * -1 + 1.
Proof.
  intros HX Hk Hi Hj.
  assert (Hn : nrows X = n) by now apply (has_shape_nrows n k).
  assert (Hc : ncols X = k) by (apply (has_shape_ncols n k); [exact HX|lia]).
  unfold cosine_distances, cosine_similarity, matmul.
  rewrite nrows_normalize, Hn.
  rewrite (has_shape_ncols _ _ _ (transpose_shape (normalize X)))
    by (rewrite ncols_normalize; lia).
  rewrite nrows_normalize, ncols_normalize, Hn, Hc.
  unfold build at 1. rewrite map_map.
  unfold entry at 1.
  rewrite (nth_map_seq _ _ n i []) by exact Hi.
  rewrite map_map.
  rewrite (nth_map_seq _ _ n j 0) by exact Hj.
  f_equal. f_equal. apply sum_upto_ext. intros l Hl. f_equal.
  unfold transpose. rewrite ncols_normalize, nrows_normalize, Hc, Hn.
  now rewrite entry_build.
Qed.

Lemma cosine_distances_symmetric (X : ndarray) (n k i j : nat) :
  has_shape n k X -> (0 < k)%nat -> (i < n)%nat -> (j < n)%nat ->
  entry (cosine_distances X) i j = entry (cosine_distances X) j i.
Proof.
  intros HX Hk Hi Hj.
  rewrite (cosine_distances_entry_products X n k i j),
    (cosine_distances_entry_products X n k j i) by assumption.
  f_equal. f_equal. apply sum_upto_ext. intros l _. apply Rmult_comm.
Qed.

Lemma Rsum_squares_nonneg (x : list R) : 0 <= Rsum (map (fun v => v * v) x).
Proof.
  induction x as [|a x IH]; simpl; [lra|]. nra.
Qed.

Lemma Rsum_squares_pos (x : list R) (v : R) :
  In v x -> v <> 0 -> 0 < Rsum (map (fun v => v * v) x).
Proof.
  induction x as [|a x IH]; simpl; intros Hin Hv; [contradiction|].
  pose proof (Rsum_squares_nonneg x) as Hx.
  destruct Hin as [->|Hin].
  - assert (0 < v * v) by nra. lra.
  - pose proof (IH Hin Hv). nra.
Qed.

Lemma norm_nonzero (x : list R) (v : R) : In v x -> v <> 0 -> norm x <> 0.
Proof.
  intros Hin Hv. unfold norm.
  pose proof (sqrt_lt_R0 _ (Rsum_squares_pos x v Hin Hv)). lra.
Qed.

Lemma spec_dot_product_self (x : list R) :
  spec_dot_product x x = Rsum (map (fun v => v * v) x).
Proof.
  unfold spec_dot_product. induction x as [|a x IH]; simpl; [reflexivity|].
  now rewrite IH.
Qed.

Lemma spec_cosine_similarity_self (x : list R) :
  norm x <> 0 -> spec_cosine_similarity x x = 1.
Proof.
  intros Hn. unfold spec_cosine_similarity.
  rewrite spec_dot_product_self.
  rewrite <- (sqrt_sqrt (Rsum (map (fun v => v * v) x)))
    by apply Rsum_squares_nonneg.
  fold (norm x). now field.
Qed.

(** * Positive play counts *)

Lemma pair_plays_positive (t : list event) (e0 : event) :
  (forall e, In e t -> (0 < plays e)%Z) -> In e0 t ->
  (0 < pair_plays t (user e0) (artist e0))%Z.
Proof.
  intros Hpos Hin. unfold pair_plays.
  assert (Hge : forall l : list event,
            (forall e, In e l -> (0 < plays e)%Z) ->
            (0 <= fold_right Z.add 0 (map plays l))%Z).
  { induction l as [|x l IH]; simpl; intros H; [lia|].
    pose proof (H x (or_introl eq_refl)).
    assert (0 <= fold_right Z.add 0 (map plays l))%Z by (apply IH; auto).
    lia. }
  induction t as [|x t IH]; simpl in *; [contradiction|].
  assert (Hrest : (0 <= fold_right Z.add 0
                          (map plays
                             (filter (fun e => (user e =? user e0)%string
                                               && (artist e =? artist e0)%string)
                                     t)))%Z).
  { apply Hge. intros e He. apply filter_In in He. apply Hpos. tauto. }
  destruct Hin as [->|Hin].
  - rewrite !String.eqb_refl. simpl.
    pose proof (Hpos e0 (or_introl eq_refl)). lia.
  - assert (0 < fold_right Z.add 0
                  (map plays
                     (filter (fun e => (user e =? user e0)%string
                                       && (artist e =? artist e0)%string) t)))%Z
      by (apply IH; auto).
    destruct ((user x =? user e0) && (artist x =? artist e0)); simpl; [|lia].
    pose proof (Hpos x (or_introl eq_refl)). lia.
Qed.

Lemma df_isin_positive (df_data : list event) (df_user : list profile) :
  (forall e, In e df_data -> (0 < plays e)%Z) ->
  forall e, In e (df_isin df_data df_user) -> (0 < plays e)%Z.
Proof.
  intros Hpos e Hin. unfold df_isin in Hin.
  apply restrict_artists_In in Hin. destruct Hin as [Hin _].
  unfold df_groupby in Hin. apply groupby_user_artist_In in Hin.
  destruct Hin as [[e0 [Hin0 [Hu Ha]]] ->].
  rewrite <- Hu, <- Ha. apply pair_plays_positive; [|exact Hin0].
  intros e1 H1. apply Hpos. unfold df_merge in H1.
  apply merge_In in H1. tauto.
Qed.

Lemma nth_csr_matrix (m : frame Z) (i : nat) :
  nth i (csr_matrix m) [] = map IZR (nth i (values m) []).
Proof.
  unfold csr_matrix. apply (map_nth (map IZR) (values m) [] i).
Qed.

(** The entry of the sparse matrix for a row of the working table. *)
Lemma csr_matrix_entry (df : list event) (m : frame Z) (e : event) :
  matrix df = Ok m -> In e df ->
  exists i j,
    nth_error (index m) i = Some (artist e)
    /\ nth_error (columns m) j = Some (user e)
    /\ entry (csr_matrix m) i j = IZR (plays e)
    /\ In (IZR (plays e)) (nth i (csr_matrix m) []).
Proof.
  intros Hm Hin.
  destruct (matrix_Ok _ _ Hm) as [Hd _].
  destruct (matrix_labels _ _ Hm) as [Hidx Hcol].
  assert (Ha : In (artist e) (index m)) by (apply Hidx; now apply in_map).
  assert (Hu : In (user e) (columns m)) by (apply Hcol; now apply in_map).
  apply In_nth_error in Ha, Hu. destruct Ha as [i Hi]. destruct Hu as [j Hj].
  pose proof (matrix_entry _ _ _ _ _ _ Hm Hi Hj) as He.
  rewrite (cell_at_present _ _ Hd Hin) in He.
  assert (Hrow : nth_error (nth i (csr_matrix m) []) j = Some (IZR (plays e)))
    by (rewrite nth_csr_matrix, nth_error_map, He; reflexivity).
  exists i, j. repeat split; try assumption.
  - unfold entry. now apply nth_error_nth.
  - now apply nth_error_In with j.
Qed.

Lemma nth_transpose (X : ndarray) (j : nat) :
  (j < ncols X)%nat ->
  nth j (transpose X) [] = map (fun i => entry X i j) (seq 0 (nrows X)).
Proof.
  intros Hj. unfold transpose, build.
  now rewrite (nth_map_seq _ _ (ncols X) j []).
Qed.

Lemma positive_plays_norms
    (df_data : list event) (df_user : list profile) (m : frame Z) :
  (forall e, In e df_data -> (0 < plays e)%Z) ->
  matrix (df_isin df_data df_user) = Ok m ->
  (forall i, (i < length (index m))%nat ->
             norm (nth i (csr_matrix m) []) <> 0)
  /\ (forall j, (j < length (columns m))%nat ->
                norm (nth j (transpose (csr_matrix m)) []) <> 0).
Proof.
  intros Hpos Hm.
  pose proof (matrix_well_labelled _ _ Hm) as Hwl.
  pose proof (csr_matrix_shape m Hwl) as HX.
  destruct (matrix_labels _ _ Hm) as [Hidx Hcol].
  destruct Hwl as [Hni [Hnc _]].
  split.
  - intros i Hi.
    destruct (nth_error (index m) i) as [a|] eqn:Ea;
      [|apply nth_error_None in Ea; lia].
    assert (Ha : In a (map artist (df_isin df_data df_user)))
      by (apply Hidx; now apply nth_error_In with i).
    apply in_map_iff in Ha. destruct Ha as [e [<- Hin]].
    destruct (csr_matrix_entry _ _ _ Hm Hin) as [i' [j [Hi' [_ [_ Hrow]]]]].
    assert (i' = i).
    { apply (proj1 (NoDup_nth_error (index m)) Hni);
        [apply nth_error_Some; now rewrite Hi'|now rewrite Hi', Ea]. }
    subst i'. apply (norm_nonzero _ _ Hrow).
    pose proof (IZR_lt _ _ (df_isin_positive _ _ Hpos e Hin)). lra.
  - intros j Hj.
    destruct (nth_error (columns m) j) as [u|] eqn:Eu;
      [|apply nth_error_None in Eu; lia].
    assert (Hu : In u (map user (df_isin df_data df_user)))
      by (apply Hcol; now apply nth_error_In with j).
    apply in_map_iff in Hu. destruct Hu as [e [<- Hin]].
    destruct (csr_matrix_entry _ _ _ Hm Hin) as [i [j' [Hi [Hj' [He _]]]]].
    assert (j' = j).
    { apply (proj1 (NoDup_nth_error (columns m)) Hnc);
        [apply nth_error_Some; now rewrite Hj'|now rewrite Hj', Eu]. }
    subst j'.
    assert (Hi' : (i < length (index m))%nat)
      by (apply nth_error_Some; now rewrite Hi).
    rewrite nth_transpose
      by (rewrite (has_shape_ncols _ _ _ HX); lia).
    apply (norm_nonzero _ (IZR (plays e))).
    + apply in_map_iff. exists i. split; [exact He|].
      apply in_seq. rewrite (has_shape_nrows _ _ _ HX). lia.
    + pose proof (IZR_lt _ _ (df_isin_positive _ _ Hpos e Hin)). lra.
Qed.

(** X5.  In a completed run both similarity arrays are symmetric. *)
Theorem similarity_arrays_are_symmetric
    (df_data : list event) (df_user : list profile) (g : env)
    (X Si Su : ndarray) :
  run df_data df_user = Ok g ->
  lookup "matrix_sparse" g = Some (VArray X) ->
  lookup "item_similarity" g = Some (VArray Si) ->
  lookup "user_similarity" g = Some (VArray Su) ->
  (forall i j, (i < nrows X)%nat -> (j < nrows X)%nat ->
               entry Si i j = entry Si j i)
  /\ (forall u v, (u < ncols X)%nat -> (v < ncols X)%nat ->
                  entry Su u v = entry Su v u).
Proof.
  intros Hrun HX HSi HSu.
  destruct (run_artifacts _ _ _ Hrun)
    as [m [Pi [Pu [_ [_ [HX' [HSi' [HSu' [_ [_ [_ [_ [Hsh [Hr Hc]]]]]]]]]]]]]].
  rewrite HX' in HX. injection HX as <-.
  rewrite HSi' in HSi. injection HSi as <-.
  rewrite HSu' in HSu. injection HSu as <-.
  assert (HnrX : nrows (csr_matrix m) = length (index m))
    by now apply (has_shape_nrows _ (length (columns m))).
  assert (HncX : ncols (csr_matrix m) = length (columns m))
    by now apply (has_shape_ncols (length (index m))).
  pose proof (transpose_shape (csr_matrix m)) as HT.
  rewrite HnrX, HncX in *.
  split.
  - intros i j Hi Hj.
    now apply (cosine_distances_symmetric _ _ _ i j Hsh Hc).
  - intros u v Hu Hv.
    now apply (cosine_distances_symmetric _ _ _ u v HT Hr).
Qed.

Lemma similarity_arrays_are_symmetric_witness :
  let df_data := [Event "u1" "a" 300000; Event "u2" "b" 300000;
                  Event "u2" "a" 100000; Event "u1" "c" 400000] in
  let df_user := [Profile "u1" (Some "f") (Some "United Kingdom");
                  Profile "u2" (Some "f") (Some "United Kingdom")] in
  let X := [[300000; 100000]; [0; 300000]; [400000; 0]] in
  exists g Si Su,
    run df_data df_user = Ok g
    /\ lookup "item_similarity" g = Some (VArray Si)
    /\ lookup "user_similarity" g = Some (VArray Su)
    /\ entry Si 0 2 = entry Si 2 0 /\ entry Su 0 1 = entry Su 1 0.
Proof.
  intros df_data df_user X.
  destruct sample_run as [g [Pi [Pu [Hrun [Hm [HX [HSi [HSu [HPi HPu]]]]]]]]].
  destruct (similarity_arrays_are_symmetric df_data df_user g X _ _
              Hrun HX HSi HSu) as [Hi Hu].
  exists g, (cosine_distances X), (cosine_distances (transpose X)).
  repeat split; try assumption.
  - apply Hi; simpl; lia.
  - apply Hu; simpl; lia.
Defined.

(** X6.  In a completed run on positive play counts, the entry of
    [item_similarity] for two artists is 1 minus the cosine similarity
    of their rows of the sparse matrix, and the entry of
    [user_similarity] for two users is 1 minus the cosine similarity of
    their columns. *)
Theorem similarity_arrays_hold_one_minus_cosine
    (df_data : list event) (df_user : list profile) (g : env)
    (X Si Su : ndarray) :
  run df_data df_user = Ok g ->
  (forall e, In e df_data -> (0 < plays e)%Z) ->
  lookup "matrix_sparse" g = Some (VArray X) ->
  lookup "item_similarity" g = Some (VArray Si) ->
  lookup "user_similarity" g = Some (VArray Su) ->
  (forall i j, (i < nrows X)%nat -> (j < nrows X)%nat ->
     entry Si i j = 1 - spec_cosine_similarity (nth i X []) (nth j X []))
  /\ (forall u v, (u < ncols X)%nat -> (v < ncols X)%nat ->
        entry Su u v
        = 1 - spec_cosine_similarity (nth u (transpose X) [])
                (nth v (transpose X) [])).
Proof.
  intros Hrun Hpos HX HSi HSu.
  destruct (run_artifacts _ _ _ Hrun)
    as [m [Pi [Pu [Hm [_ [HX' [HSi' [HSu' [_ [_ [_ [_ [Hsh [Hr Hc]]]]]]]]]]]]]].
  rewrite HX' in HX. injection HX as <-.
  rewrite HSi' in HSi. injection HSi as <-.
  rewrite HSu' in HSu. injection HSu as <-.
  assert (HnrX : nrows (csr_matrix m) = length (index m))
    by now apply (has_shape_nrows _ (length (columns m))).
  assert (HncX : ncols (csr_matrix m) = length (columns m))
    by now apply (has_shape_ncols (length (index m))).
  pose proof (transpose_shape (csr_matrix m)) as HT.
  rewrite HnrX, HncX in *.
  destruct (positive_plays_norms _ _ _ Hpos Hm) as [Hrows Hcols].
  split.
  - intros i j Hi Hj.
    apply (cosine_distances_entry _ _ _ i j Hsh Hc Hi Hj); auto.
  - intros u v Hu Hv.
    apply (cosine_distances_entry _ _ _ u v HT Hr Hu Hv); auto.
Qed.

Lemma similarity_arrays_hold_one_minus_cosine_witness :
  let df_data := [Event "u1" "a" 300000; Event "u2" "b" 300000;
                  Event "u2" "a" 100000; Event "u1" "c" 400000] in
  let df_user := [Profile "u1" (Some "f") (Some "United Kingdom");
                  Profile "u2" (Some "f") (Some "United Kingdom")] in
  let X := [[300000; 100000]; [0; 300000]; [400000; 0]] in
  exists g Si Su,
    run df_data df_user = Ok g
    /\ lookup "item_similarity" g = Some (VArray Si)
    /\ lookup "user_similarity" g = Some (VArray Su)
    /\ entry Si 0 1
       = 1 - spec_cosine_similarity [300000; 100000] [0; 300000]
    /\ entry Su 0 1
       = 1 - spec_cosine_similarity (nth 0 (transpose X) [])
               (nth 1 (transpose X) []).
Proof.
  intros df_data df_user X.
  destruct sample_run as [g [Pi [Pu [Hrun [Hm [HX [HSi [HSu [HPi HPu]]]]]]]]].
  assert (Hpos : forall e, In e df_data -> (0 < plays e)%Z)
    by (intros e [<-|[<-|[<-|[<-|[]]]]]; reflexivity).
  destruct (similarity_arrays_hold_one_minus_cosine df_data df_user g X _ _
              Hrun Hpos HX HSi HSu) as [Hi Hu].
  exists g, (cosine_distances X), (cosine_distances (transpose X)).
  repeat split; try assumption.
  - apply (Hi 0%nat 1%nat); simpl; lia.
  - apply (Hu 0%nat 1%nat); simpl; lia.
Defined.

(** X7.  In a completed run on positive play counts the diagonal of
    [item_similarity] is 0, so the plays of a user for an artist carry
    weight zero in the item-based prediction for that same artist: the
    prediction is the weighted sum over the other artists only. *)
Theorem own_plays_have_zero_weight
    (df_data : list event) (df_user : list profile) (g : env)
    (X S P : ndarray) :
  run df_data df_user = Ok g ->
  (forall e, In e df_data -> (0 < plays e)%Z) ->
  lookup "matrix_sparse" g = Some (VArray X) ->
  lookup "item_similarity" g = Some (VArray S) ->
  lookup "item_prediction" g = Some (VArray P) ->
  forall i, (i < nrows X)%nat ->
    entry S i i = 0
    /\ forall u, (u < ncols X)%nat ->
         entry P u i
         = sum_upto (nrows X)
             (fun j => if (j =? i)%nat then 0
                       else entry (transpose X) u j * entry S j i)
           / sum_upto (nrows X)
               (fun j => if (j =? i)%nat then 0 else Rabs (entry S i j)).
Proof.
  intros Hrun Hpos HX HS HP i Hi.
  destruct (run_artifacts _ _ _ Hrun)
    as [m [Pi [Pu [Hm [_ [HX' [HSi' [_ [HPi' [_ [Hpi [_ [Hsh [Hr Hc]]]]]]]]]]]]]].
  rewrite HX' in HX. injection HX as <-.
  rewrite HSi' in HS. injection HS as <-.
  rewrite HPi' in HP. injection HP as <-.
  assert (HnrX : nrows (csr_matrix m) = length (index m))
    by now apply (has_shape_nrows _ (length (columns m))).
  assert (HncX : ncols (csr_matrix m) = length (columns m))
    by now apply (has_shape_ncols (length (index m))).
  pose proof (transpose_shape (csr_matrix m)) as HT.
  pose proof (cosine_distances_shape (csr_matrix m)) as HS.
  rewrite HnrX, HncX in *.
  destruct (positive_plays_norms _ _ _ Hpos Hm) as [Hrows _].
  assert (Hdiag : entry (cosine_distances (csr_matrix m)) i i = 0).
  { rewrite (cosine_distances_entry _ _ _ i i Hsh Hc Hi Hi) by auto.
    rewrite spec_cosine_similarity_self by auto. ring. }
  split; [exact Hdiag|].
  intros u Hu.
  destruct (predict_item_entries _ _ _ _ HT (HS Hc) Hc)
    as [P' [HP' [_ Hentries]]].
  rewrite Hpi in HP'. injection HP' as <-.
  rewrite (Hentries u i Hu Hi). f_equal.
  - apply sum_upto_ext. intros j Hj.
    destruct (j =? i)%nat eqn:E; [|reflexivity].
    apply Nat.eqb_eq in E. subst j. rewrite Hdiag. ring.
  - apply sum_upto_ext. intros j Hj.
    destruct (j =? i)%nat eqn:E; [|reflexivity].
    apply Nat.eqb_eq in E. subst j. rewrite Hdiag. apply Rabs_R0.
Qed.

Lemma own_plays_have_zero_weight_witness :
  let df_data := [Event "u1" "a" 300000; Event "u2" "b" 300000;
                  Event "u2" "a" 100000; Event "u1" "c" 400000] in
  let df_user := [Profile "u1" (Some "f") (Some "United Kingdom");
                  Profile "u2" (Some "f") (Some "United Kingdom")] in
  let X := [[300000; 100000]; [0; 300000]; [400000; 0]] in
  exists g S P,
    run df_data df_user = Ok g
    /\ lookup "item_similarity" g = Some (VArray S)
    /\ lookup "item_prediction" g = Some (VArray P)
    /\ entry S 0 0 = 0
    /\ entry P 1 0
       = sum_upto 3 (fun j => if (j =? 0)%nat then 0
                              else entry (transpose X) 1 j * entry S j 0)
         / sum_upto 3 (fun j => if (j =? 0)%nat then 0
                                else Rabs (entry S 0 j)).
Proof.
  intros df_data df_user X.
  destruct sample_run as [g [Pi [Pu [Hrun [Hm [HX [HSi [HSu [HPi HPu]]]]]]]]].
  assert (Hpos : forall e, In e df_data -> (0 < plays e)%Z)
    by (intros e [<-|[<-|[<-|[<-|[]]]]]; reflexivity).
  destruct (own_plays_have_zero_weight df_data df_user g X _ Pi
              Hrun Hpos HX HSi HPi 0%nat) as [Hd Hp].
  - simpl; lia.
  - exists g, (cosine_distances X), Pi.
    repeat split; try assumption.
    apply (Hp 1%nat). simpl; lia.
Defined.

(** * Range of the cosine distances *)

Lemma spec_dot_product_cons (a b : R) (x y : list R) :
  spec_dot_product (a :: x) (b :: y) = a * b + spec_dot_product x y.
Proof. reflexivity. Qed.

(** Cauchy-Schwarz on the rows. *)
Lemma spec_dot_product_square (x y : list R) :
  spec_dot_product x y * spec_dot_product x y
  <= Rsum (map (fun v => v * v) x) * Rsum (map (fun v => v * v) y).
Proof.
  revert y. induction x as [|a x IH]; intros y.
  - unfold spec_dot_product. simpl.
    pose proof (Rsum_squares_nonneg y). nra.
  - destruct y as [|b y].
    + unfold spec_dot_product. simpl.
      pose proof (Rsum_squares_nonneg (a :: x)). simpl in *. nra.
    + rewrite spec_dot_product_cons. simpl.
      pose proof (IH y) as Hcs.
      pose proof (Rsum_squares_nonneg x) as HA.
      pose proof (Rsum_squares_nonneg y) as HB.
      set (C := spec_dot_product x y) in *.
      set (A := Rsum (map (fun v => v * v) x)) in *.
      set (B := Rsum (map (fun v => v * v) y)) in *.
      assert (Hmix : 2 * (a * b) * C <= a * a * B + A * (b * b)).
      { assert (H0 : 0 <= a * a * B + A * (b * b)) by nra.
        assert (Hsq : (2 * (a * b) * C) * (2 * (a * b) * C)
                      <= (a * a * B + A * (b * b)) * (a * a * B + A * (b * b))).
        { assert (0 <= (a * a * B - A * (b * b)) * (a * a * B - A * (b * b)))
            by apply Rle_0_sqr.
          assert (0 <= (a * b) * (a * b)) by apply Rle_0_sqr.
          assert ((a * b) * (a * b) * (C * C) <= (a * b) * (a * b) * (A * B))
            by (apply Rmult_le_compat_l; assumption).
          nra. }
        destruct (Rle_dec (2 * (a * b) * C) (a * a * B + A * (b * b)))
          as [Hle|Hgt]; [exact Hle|].
        apply Rnot_le_lt in Hgt. nra. }
      nra.
Qed.

Lemma spec_dot_product_le_norms (x y : list R) :
  spec_dot_product x y <= norm x * norm y.
Proof.
  unfold norm. rewrite <- sqrt_mult by apply Rsum_squares_nonneg.
  apply Rle_trans with (sqrt (spec_dot_product x y * spec_dot_product x y)).
  - destruct (Rle_dec 0 (spec_dot_product x y)) as [Hp|Hn].
    + rewrite sqrt_square by exact Hp. lra.
    + apply Rnot_le_lt in Hn.
      pose proof (sqrt_pos (spec_dot_product x y * spec_dot_product x y)).
      lra.
  - apply sqrt_le_1_alt, spec_dot_product_square.
Qed.

Lemma spec_dot_product_nonneg (x y : list R) :
  Forall (fun v => 0 <= v) x -> Forall (fun v => 0 <= v) y ->
  0 <= spec_dot_product x y.
Proof.
  intros Hx. revert y. induction Hx as [|a x Ha Hx IH]; intros y Hy.
  - unfold spec_dot_product. simpl. lra.
  - destruct Hy as [|b y Hb Hy].
    + unfold spec_dot_product. simpl. lra.
    + rewrite spec_dot_product_cons. pose proof (IH y Hy). nra.
Qed.

Lemma spec_cosine_similarity_range (x y : list R) :
  Forall (fun v => 0 <= v) x -> Forall (fun v => 0 <= v) y ->
  norm x <> 0 -> norm y <> 0 ->
  0 <= spec_cosine_similarity x y <= 1.
Proof.
  intros Hx Hy Hnx Hny. unfold spec_cosine_similarity.
  assert (Hpx : 0 < norm x) by (pose proof (sqrt_pos (Rsum (map (fun v => v * v) x))); unfold norm in *; lra).
  assert (Hpy : 0 < norm y) by (pose proof (sqrt_pos (Rsum (map (fun v => v * v) y))); unfold norm in *; lra).
  assert (Hp : 0 < norm x * norm y) by nra.
  pose proof (spec_dot_product_nonneg x y Hx Hy) as Hd.
  pose proof (spec_dot_product_le_norms x y) as Hle.
  split.
  - apply Rmult_le_pos; [exact Hd|]. left. now apply Rinv_0_lt_compat.
  - apply (Rmult_le_reg_r (norm x * norm y)); [exact Hp|].
    unfold Rdiv. rewrite Rmult_assoc, Rinv_l by lra. lra.
Qed.

(** The sparse matrix of positive plays has no negative entry. *)
Lemma csr_matrix_nonneg (df : list event) (m : frame Z) :
  (forall e, In e df -> (0 < plays e)%Z) -> matrix df = Ok m ->
  Forall (Forall (fun v => 0 <= v)) (csr_matrix m).
Proof.
  intros Hpos Hm. destruct (matrix_Ok _ _ Hm) as [_ ->].
  unfold csr_matrix, fillna. simpl. rewrite !map_map.
  apply Forall_forall. intros row Hrow. apply in_map_iff in Hrow.
  destruct Hrow as [a [<- _]]. rewrite !map_map.
  apply Forall_forall. intros v Hv. apply in_map_iff in Hv.
  destruct Hv as [u [<- _]].
  unfold cell_at. destruct (find _ df) as [e|] eqn:E; simpl; [|lra].
  apply find_some in E. destruct E as [Hin _].
  pose proof (IZR_lt _ _ (Hpos e Hin)). lra.
Qed.

Lemma nth_Forall_nonneg (X : ndarray) (i : nat) :
  Forall (Forall (fun v => 0 <= v)) X -> Forall (fun v => 0 <= v) (nth i X []).
Proof.
  intros H. destruct (Nat.lt_ge_cases i (length X)) as [Hi|Hi].
  - rewrite Forall_forall in H. apply H. now apply nth_In.
  - rewrite nth_overflow by exact Hi. constructor.
Qed.

Lemma entry_nonneg (X : ndarray) (i j : nat) :
  Forall (Forall (fun v => 0 <= v)) X -> 0 <= entry X i j.
Proof.
  intros H. unfold entry.
  pose proof (nth_Forall_nonneg X i H) as Hrow.
  destruct (Nat.lt_ge_cases j (length (nth i X []))) as [Hj|Hj].
  - rewrite Forall_forall in Hrow. apply Hrow. now apply nth_In.
  - rewrite nth_overflow by exact Hj. lra.
Qed.

Lemma transpose_nonneg (X : ndarray) :
  Forall (Forall (fun v => 0 <= v)) X ->
  Forall (Forall (fun v => 0 <= v)) (transpose X).
Proof.
  intros H. unfold transpose, build.
  apply Forall_forall. intros row Hrow. apply in_map_iff in Hrow.
  destruct Hrow as [i [<- _]].
  apply Forall_forall. intros v Hv. apply in_map_iff in Hv.
  destruct Hv as [j [<- _]]. now apply entry_nonneg.
Qed.

(** X8.  In a completed run on positive play counts every entry of
    [item_similarity] and of [user_similarity] lies between 0 and 1. *)
Theorem similarity_entries_between_0_and_1
    (df_data : list event) (df_user : list profile) (g : env)
    (X Si Su : ndarray) :
  run df_data df_user = Ok g ->
  (forall e, In e df_data -> (0 < plays e)%Z) ->
  lookup "matrix_sparse" g = Some (VArray X) ->
  lookup "item_similarity" g = Some (VArray Si) ->
  lookup "user_similarity" g = Some (VArray Su) ->
  (forall i j, (i < nrows X)%nat -> (j < nrows X)%nat ->
               0 <= entry Si i j <= 1)
  /\ (forall u v, (u < ncols X)%nat -> (v < ncols X)%nat ->
                  0 <= entry Su u v <= 1).
Proof.
  intros Hrun Hpos HX HSi HSu.
  destruct (run_artifacts _ _ _ Hrun)
    as [m [Pi [Pu [Hm [_ [HX' [HSi' [HSu' [_ [_ [_ [_ [Hsh [Hr Hc]]]]]]]]]]]]]].
  rewrite HX' in HX. injection HX as <-.
  rewrite HSi' in HSi. injection HSi as <-.
  rewrite HSu' in HSu. injection HSu as <-.
  assert (HnrX : nrows (csr_matrix m) = length (index m))
    by now apply (has_shape_nrows _ (length (columns m))).
  assert (HncX : ncols (csr_matrix m) = length (columns m))
    by now apply (has_shape_ncols (length (index m))).
  pose proof (transpose_shape (csr_matrix m)) as HT.
  rewrite HnrX, HncX in *.
  destruct (positive_plays_norms _ _ _ Hpos Hm) as [Hrows Hcols].
  pose proof (csr_matrix_nonneg _ _ (df_isin_positive _ _ Hpos) Hm) as Hnn.
  pose proof (transpose_nonneg _ Hnn) as HnnT.
  split.
  - intros i j Hi Hj.
    rewrite (cosine_distances_entry _ _ _ i j Hsh Hc Hi Hj) by auto.
    pose proof (spec_cosine_similarity_range _ _
                  (nth_Forall_nonneg _ i Hnn) (nth_Forall_nonneg _ j Hnn)
                  (Hrows i Hi) (Hrows j Hj)).
    lra.
  - intros u v Hu Hv.
    rewrite (cosine_distances_entry _ _ _ u v HT Hr Hu Hv) by auto.
    pose proof (spec_cosine_similarity_range _ _
                  (nth_Forall_nonneg _ u HnnT) (nth_Forall_nonneg _ v HnnT)
                  (Hcols u Hu) (Hcols v Hv)).
    lra.
Qed.

Lemma similarity_entries_between_0_and_1_witness :
  let df_data := [Event "u1" "a" 300000; Event "u2" "b" 300000;
                  Event "u2" "a" 100000; Event "u1" "c" 400000] in
  let df_user := [Profile "u1" (Some "f") (Some "United Kingdom");
                  Profile "u2" (Some "f") (Some "United Kingdom")] in
  let X := [[300000; 100000]; [0; 300000]; [400000; 0]] in
  exists g Si Su,
    run df_data df_user = Ok g
    /\ lookup "item_similarity" g = Some (VArray Si)
    /\ lookup "user_similarity" g = Some (VArray Su)
    /\ 0 <= entry Si 0 1 <= 1 /\ 0 <= entry Su 0 1 <= 1.
Proof.
  intros df_data df_user X.
  destruct sample_run as [g [Pi [Pu [Hrun [Hm [HX [HSi [HSu [HPi HPu]]]]]]]]].
  assert (Hpos : forall e, In e df_data -> (0 < plays e)%Z)
    by (intros e [<-|[<-|[<-|[<-|[]]]]]; reflexivity).
  destruct (similarity_entries_between_0_and_1 df_data df_user g X _ _
              Hrun Hpos HX HSi HSu) as [Hi Hu].
  exists g, (cosine_distances X), (cosine_distances (transpose X)).
  split; [assumption|]. split; [assumption|]. split; [assumption|].
  split; [apply (Hi 0%nat 1%nat)|apply (Hu 0%nat 1%nat)]; simpl; lia.
Defined.

(** * Order of the sorted tables *)

Section SortedFacts.
Variable A : Type.
Variable le : A -> A -> bool.
Hypothesis le_total : forall a b, le a b = true \/ le b a = true.

Let leR (a b : A) : Prop := le a b = true.

Lemma insert_sorted_HdRel (x y : A) (l : list A) :
  leR y x -> HdRel leR y l -> HdRel leR y (insert_sorted le x l).
Proof.
  intros Hyx Hl. destruct l as [|z l]; simpl.
  - now constructor.
  - destruct (le x z); constructor; [exact Hyx|].
    now inversion Hl.
Qed.

Lemma insert_sorted_Sorted (x : A) (l : list A) :
  Sorted leR l -> Sorted leR (insert_sorted le x l).
Proof.
  induction l as [|y l IH]; simpl; intros Hs.
  - repeat constructor.
  - inversion Hs as [|? ? Hl Hhd]; subst.
    destruct (le x y) eqn:E.
    + constructor; [exact Hs|]. now constructor.
    + constructor; [now apply IH|].
      apply insert_sorted_HdRel; [|exact Hhd].
      destruct (le_total x y) as [H|H]; [congruence|exact H].
Qed.

Lemma isort_Sorted (l : list A) : Sorted leR (isort le l).
Proof.
  induction l as [|x l IH]; simpl; [constructor|].
  now apply insert_sorted_Sorted.
Qed.
End SortedFacts.

Lemma StronglySorted_firstn_skipn (A : Type) (R : A -> A -> Prop)
    (l : list A) (n : nat) (x y : A) :
  StronglySorted R l -> In x (firstn n l) -> In y (skipn n l) -> R x y.
Proof.
  intros Hs. revert n. induction Hs as [|a l Hs IH Hall]; intros n Hx Hy.
  - destruct n; contradiction.
  - destruct n as [|n]; simpl in *; [contradiction|].
    destruct Hx as [<-|Hx].
    + rewrite Forall_forall in Hall. apply Hall.
      rewrite <- (firstn_skipn n l). apply in_or_app. now right.
    + now apply (IH n).
Qed.

Lemma string_leb_neq_ltb (a b : string) :
  String.leb a b = true -> a <> b -> String.ltb a b = true.
Proof.
  unfold String.leb, String.ltb. intros Hle Hne.
  destruct (String.compare a b) eqn:E; try reflexivity; try discriminate.
  apply String.compare_eq_iff in E. contradiction.
Qed.

(** A duplicate-free list sorted by [String.leb] is strictly increasing. *)
Lemma Sorted_leb_NoDup_ltb (A : Type) (f : A -> string) (l : list A) :
  Sorted (fun x y => String.leb (f x) (f y) = true) l -> NoDup (map f l) ->
  Sorted (fun x y => String.ltb (f x) (f y) = true) l.
Proof.
  induction 1 as [|a l Hs IH Hhd]; simpl; intros Hd; [constructor|].
  inversion Hd as [|? ? Hn Hd']; subst.
  constructor; [now apply IH|].
  destruct Hhd as [|b l Hab]; constructor.
  apply string_leb_neq_ltb; [exact Hab|].
  intros E. apply Hn. simpl. now left.
Qed.

Lemma Zsum_Permutation (l l' : list Z) :
  Permutation l l' -> fold_right Z.add 0%Z l = fold_right Z.add 0%Z l'.
Proof.
  induction 1; simpl; lia.
Qed.

Lemma agg_add_sum (K : Type) (eqb : K -> K -> bool) (k : K) (v : Z)
    (acc : list (K * Z)) :
  fold_right Z.add 0%Z (map snd (agg_add eqb k v acc))
  = (fold_right Z.add 0 (map snd acc) + v)%Z.
Proof.
  induction acc as [|[k0 s] acc IH]; simpl; [lia|].
  destruct (eqb k k0); simpl; [lia|]. rewrite IH. lia.
Qed.

Lemma groupby_sum_conserves (K : Type) (eqb le : K -> K -> bool)
    (rows : list (K * Z)) :
  fold_right Z.add 0%Z (map snd (groupby_sum eqb le rows))
  = fold_right Z.add 0%Z (map snd rows).
Proof.
  unfold groupby_sum.
  rewrite (Zsum_Permutation _ (map snd (agg_sum eqb rows)))
    by (apply Permutation_map, isort_perm).
  unfold agg_sum.
  assert (H : forall acc,
            fold_right Z.add 0%Z
              (map snd (fold_left (fun acc kv => agg_add eqb (fst kv) (snd kv) acc)
                          rows acc))
            = (fold_right Z.add 0 (map snd acc)
               + fold_right Z.add 0 (map snd rows))%Z).
  { induction rows as [|kv rows IH]; simpl; intros acc; [lia|].
    rewrite IH, agg_add_sum. lia. }
  rewrite H. simpl. lia.
Qed.

(** * The artist totals and the top artists *)

(** X9.  [df_artist] has exactly one row per artist of the listening
    events, carrying the sum of the plays of the artist, and its rows
    are in strictly increasing order of the artist name. *)
Theorem df_artist_totals_per_artist (df_data : list event) :
  NoDup (map fst (df_artist df_data))
  /\ (forall a s, In (a, s) (df_artist df_data)
                  <-> In a (map artist df_data) /\ s = total_plays df_data a)
  /\ Sorted (fun x y => String.ltb (fst x) (fst y) = true) (df_artist df_data).
Proof.
  assert (Hd : NoDup (map fst (df_artist df_data)))
    by apply (groupby_sum_NoDup _ _ String.eqb_eq).
  split; [exact Hd|]. split.
  - intros a s. unfold df_artist.
    rewrite (groupby_sum_spec _ _ String.eqb_eq), map_map.
    now rewrite key_total_total_plays.
  - apply Sorted_leb_NoDup_ltb; [|exact Hd].
    unfold df_artist, groupby_sum.
    apply (isort_Sorted _ (fun x y => String.leb (fst x) (fst y))).
    intros x y. apply String.leb_total.
Qed.

(** X10.  [df_top_artist] lists each artist above the threshold once,
    with its total, by decreasing total; the rows printed under "Top 10
    artists" ([df_top_artist[0:9]]) are its first nine at most, and no
    artist left out of them has more plays than a printed one. *)
Theorem top_artists_sorted_and_nine_printed (df_data : list event) :
  let top := df_top_artist (df_artist df_data) in
  NoDup (map fst top)
  /\ (forall a s, In (a, s) top
                  <-> s = total_plays df_data a /\ (200000 < s)%Z)
  /\ StronglySorted (fun x y => (snd y <= snd x)%Z) top
  /\ length (top_artists_printed top) = Nat.min 9 (length top)
  /\ (forall x y, In x (top_artists_printed top) -> In y top ->
                  ~ In y (top_artists_printed top) -> (snd y <= snd x)%Z).
Proof.
  intros top.
  assert (Hd : NoDup (map fst (df_artist df_data)))
    by apply (groupby_sum_NoDup _ _ String.eqb_eq).
  assert (Hs : StronglySorted (fun x y => (snd y <= snd x)%Z) top).
  { apply Sorted_StronglySorted; [intros x y z; lia|].
    unfold top, df_top_artist.
    pose proof (isort_Sorted _ (fun x y : string * Z => (snd y <=? snd x)%Z)
                  ltac:(intros x y; rewrite !Z.leb_le; lia)
                  (filter (fun r => (200000 <? snd r)%Z) (df_artist df_data)))
      as H.
    induction H as [|a l Hl IH Hhd]; constructor; [exact IH|].
    destruct Hhd; constructor. now apply Z.leb_le. }
  split; [|split; [|split; [exact Hs|split]]].
  - unfold top, df_top_artist. apply isort_map_NoDup.
    clear Hs top. induction (df_artist df_data) as [|r t IH]; simpl;
      [constructor|].
    inversion Hd as [|? ? Hn Hd']; subst.
    destruct (200000 <? snd r)%Z; simpl; [|now apply IH].
    constructor; [|now apply IH].
    intros Hin. apply Hn. apply in_map_iff in Hin.
    destruct Hin as [r' [E Hin]]. apply filter_In in Hin.
    rewrite <- E. apply in_map. tauto.
  - intros a s. unfold top, df_top_artist, df_artist.
    rewrite isort_In, filter_In, (groupby_sum_spec _ _ String.eqb_eq), map_map.
    simpl. rewrite key_total_total_plays, Z.ltb_lt. split.
    + tauto.
    + intros [-> Hlt]. repeat split; try assumption.
      destruct (in_dec string_dec a (map artist df_data)) as [Hin|Hn];
        [exact Hin|].
      rewrite (total_plays_absent _ _ Hn) in Hlt. lia.
  - unfold top_artists_printed, slice_rows. simpl skipn.
    rewrite length_firstn. reflexivity.
  - unfold top_artists_printed, slice_rows. simpl skipn. simpl Nat.sub.
    intros x y Hx Hy Hny.
    apply (StronglySorted_firstn_skipn _ _ top 9 x y Hs Hx).
    rewrite <- (firstn_skipn 9 top) in Hy. apply in_app_or in Hy.
    destruct Hy as [Hy|Hy]; [contradiction|exact Hy].
Qed.


(** * Label lookups on the pivoted matrix *)

Lemma get_loc_None (s : string) (labels : list string) :
  ~ In s labels -> get_loc s labels = None.
Proof.
  intros Hn. destruct (get_loc s labels) as [i|] eqn:E; [|reflexivity].
  apply get_loc_Some in E. apply nth_error_In in E. contradiction.
Qed.

Lemma unique_sorted_increasing (l : list string) :
  Sorted (fun a b => String.ltb a b = true) (unique_sorted l).
Proof.
  apply (Sorted_leb_NoDup_ltb _ (fun a => a)).
  - unfold unique_sorted. apply isort_Sorted. apply String.leb_total.
  - rewrite map_id. apply unique_sorted_NoDup.
Qed.

(** X12.  The lookups of the checking cells on the pivoted matrix of a
    run: its shape is (distinct artists, distinct users) of the
    restricted working table; for an artist of that table [get_loc]
    gives a position whose index label is the artist, [loc] by the
    label and [iloc] by that position give the same row, with one entry
    per user, and indexing that row by position agrees with the lookup
    by the two labels; for any other artist [get_loc] and [loc] find
    nothing. *)
Theorem matrix_lookups_by_label_and_position
    (df_data : list event) (df_user : list profile) :
  exists m,
    matrix (df_isin df_data df_user) = Ok m
    /\ shape m
       = (length (nodup string_dec (map artist (df_isin df_data df_user))),
          length (nodup string_dec (map user (df_isin df_data df_user))))
    /\ (forall a, In a (map artist (df_isin df_data df_user)) ->
          exists i row,
            get_loc a (index m) = Some i
            /\ nth_error (index m) i = Some a
            /\ loc_row m a = Some row
            /\ iloc m i = Some row
            /\ length row = length (columns m)
            /\ forall j u, nth_error (columns m) j = Some u ->
                           nth_error row j = loc m a u)
    /\ (forall a, ~ In a (map artist (df_isin df_data df_user)) ->
          get_loc a (index m) = None /\ loc_row m a = None).
Proof.
  destruct (matrix_unique_pairs _ (df_isin_unique_pairs df_data df_user))
    as [m Hm].
  pose proof (matrix_well_labelled _ _ Hm) as Hwl.
  destruct (matrix_labels _ _ Hm) as [Hidx _].
  exists m. split; [exact Hm|]. split; [|split].
  - unfold shape. destruct (matrix_Ok _ _ Hm) as [_ ->]. simpl.
    now rewrite !unique_sorted_length.
  - intros a Ha. apply Hidx in Ha.
    destruct (get_loc_In _ _ Ha) as [i Hi].
    pose proof (get_loc_Some _ _ _ Hi) as Hnth.
    destruct Hwl as [Hni [Hnc [Hlen Hrows]]].
    assert (Hlt : (i < length (values m))%nat)
      by (rewrite Hlen; apply nth_error_Some; now rewrite Hnth).
    destruct (nth_error (values m) i) as [row|] eqn:Erow;
      [|apply nth_error_None in Erow; lia].
    exists i, row. unfold loc_row, iloc. rewrite Hi.
    repeat split; try assumption.
    + rewrite Forall_forall in Hrows. apply Hrows.
      now apply nth_error_In with i.
    + intros j u Hj. unfold loc.
      rewrite Hi, (get_loc_nth_error _ _ _ Hnc Hj).
      now rewrite (nth_error_nth _ _ [] Erow).
  - intros a Ha.
    assert (Hn : ~ In a (index m)) by (intros H; apply Ha; now apply Hidx).
    unfold loc_row. now rewrite (get_loc_None _ _ Hn).
Qed.

(** X13.  The row labels and the column labels of a pivoted matrix are
    in strictly increasing string order: the position of an artist is
    its rank among the artists of the pivoted table. *)
Theorem pivot_labels_are_increasing (df : list event) (m : frame Z) :
  matrix df = Ok m ->
  Sorted (fun a b => String.ltb a b = true) (index m)
  /\ Sorted (fun a b => String.ltb a b = true) (columns m).
Proof.
  intros Hm. destruct (matrix_Ok _ _ Hm) as [_ ->]. simpl.
  split; apply unique_sorted_increasing.
Qed.

Lemma pivot_labels_are_increasing_witness :
  Sorted (fun a b => String.ltb a b = true) ["muse"; "radiohead"; "the beatles"]
  /\ Sorted (fun a b => String.ltb a b = true) ["u1"; "u2"].
Proof.
  apply (pivot_labels_are_increasing
           [Event "u2" "the beatles" 4; Event "u1" "radiohead" 2;
            Event "u2" "muse" 7; Event "u1" "the beatles" 1]
           (Frame ["muse"; "radiohead"; "the beatles"] ["u1"; "u2"]
              [[0; 7]; [2; 0]; [1; 4]]%Z)).
  reflexivity.
Defined.

(** * Repeated profile rows *)

Lemma filter_eqb_length (u : string) (r : list string) :
  length (filter (String.eqb u) r) = count_occ string_dec r u.
Proof.
  induction r as [|x r IH]; simpl; [reflexivity|].
  destruct (string_dec x u) as [->|Hne].
  - rewrite String.eqb_refl. simpl. now rewrite IH.
  - assert (E : (u =? x) = false) by (apply String.eqb_neq; congruence).
    now rewrite E.
Qed.

Lemma pair_plays_app (t1 t2 : list event) (u a : string) :
  pair_plays (t1 ++ t2)%list u a = (pair_plays t1 u a + pair_plays t2 u a)%Z.
Proof.
  unfold pair_plays. rewrite filter_app, map_app.
  induction (map plays (filter _ t1)) as [|x l IH]; simpl; lia.
Qed.

Lemma pair_plays_copies (e : event) (l : list string) (u a : string) :
  pair_plays (map (fun _ : string => e) l) u a
  = (Z.of_nat (length l) * pair_plays [e] u a)%Z.
Proof.
  induction l as [|x l IH]; [reflexivity|].
  change (map (fun _ : string => e) (x :: l))
    with (([e] ++ map (fun _ : string => e) l)%list).
  rewrite pair_plays_app, IH. simpl length. lia.
Qed.

Lemma merge_pair_plays (left : list event) (right : list string)
    (u a : string) :
  pair_plays (merge left right) u a
  = (Z.of_nat (count_occ string_dec right u) * pair_plays left u a)%Z.
Proof.
  unfold merge. induction left as [|e left IH]; simpl.
  - unfold pair_plays. simpl. lia.
  - rewrite pair_plays_app, IH, pair_plays_copies, filter_eqb_length.
    change (e :: left) with (([e] ++ left)%list).
    rewrite (pair_plays_app [e] left).
    unfold pair_plays at 1 3. simpl.
    destruct (user e =? u) eqn:Eu; simpl; [|lia].
    apply String.eqb_eq in Eu. subst u. lia.
Qed.

(** X14.  The plays of a row of the aggregated working table is the sum
    of the plays of the listening events of its (user, artist) pair
    multiplied by the number of rows the filtered profile table has for
    the user: a profile listed twice doubles the play counts of its
    user. *)
Theorem aggregated_plays_scale_with_profile_rows
    (df_data : list event) (df_user : list profile) (e : event) :
  In e (df_groupby df_data df_user) ->
  plays e
  = (Z.of_nat (count_occ string_dec
                 (df_user_UK_female (df_user_UK df_user)) (user e))
     * pair_plays df_data (user e) (artist e))%Z.
Proof.
  intros Hin. unfold df_groupby in Hin.
  apply groupby_user_artist_In in Hin. destruct Hin as [_ ->].
  apply merge_pair_plays.
Qed.

Lemma aggregated_plays_scale_with_profile_rows_witness :
  let df_data := [Event "u" "a" 100; Event "u" "a" 20; Event "v" "a" 5] in
  let df_user := [Profile "u" (Some "f") (Some "United Kingdom");
                  Profile "v" (Some "m") (Some "United Kingdom");
                  Profile "u" (Some "f") (Some "United Kingdom")] in
  df_groupby df_data df_user = [Event "u" "a" 240]
  /\ (240 = Z.of_nat (count_occ string_dec
                        (df_user_UK_female (df_user_UK df_user)) "u")
            * pair_plays df_data "u" "a")%Z.
Proof.
  intros df_data df_user. split; [reflexivity|].
  apply (aggregated_plays_scale_with_profile_rows df_data df_user
           (Event "u" "a" 240)).
  simpl. now left.
Defined.

(** * The array handed to [predict] *)

(** X15.  In a completed run the array handed to [predict],
    [matrix_sparse.T], is user by artist: for every row of the
    restricted working table its entry at the position of the user and
    the position of the artist is the plays of the row, and its entry at
    the positions of a user and an artist with no row is 0. *)
Theorem predict_receives_user_by_artist_plays
    (df_data : list event) (df_user : list profile) (g : env)
    (m : frame Z) (X : ndarray) :
  run df_data df_user = Ok g ->
  lookup "matrix" g = Some (VFrame m) ->
  lookup "matrix_sparse" g = Some (VArray X) ->
  has_shape (length (columns m)) (length (index m)) (transpose X)
  /\ forall i j a u,
       nth_error (index m) i = Some a -> nth_error (columns m) j = Some u ->
       (forall e, In e (df_isin df_data df_user) ->
                  artist e = a -> user e = u ->
                  entry (transpose X) j i = IZR (plays e))
       /\ ((forall e, In e (df_isin df_data df_user) ->
                      artist e = a -> user e <> u) ->
           entry (transpose X) j i = 0).
Proof.
  intros Hrun Hm HX.
  destruct (run_artifacts _ _ _ Hrun)
    as [m' [Pi [Pu [Hmat [Hm' [HX' [_ [_ [_ [_ [_ [_ [Hsh [Hr Hc]]]]]]]]]]]]]].
  rewrite Hm' in Hm. injection Hm as <-.
  rewrite HX' in HX. injection HX as <-.
  assert (HnrX : nrows (csr_matrix m') = length (index m'))
    by now apply (has_shape_nrows _ (length (columns m'))).
  assert (HncX : ncols (csr_matrix m') = length (columns m'))
    by now apply (has_shape_ncols (length (index m'))).
  pose proof (transpose_shape (csr_matrix m')) as HT.
  rewrite HnrX, HncX in HT. split; [exact HT|].
  intros i j a u Hi Hj.
  assert (Hil : (i < length (index m'))%nat)
    by (apply nth_error_Some; now rewrite Hi).
  assert (Hjl : (j < length (columns m'))%nat)
    by (apply nth_error_Some; now rewrite Hj).
  assert (Hentry : entry (transpose (csr_matrix m')) j i
                   = IZR (match cell_at (df_isin df_data df_user) a u with
                          | Some x => x
                          | None => 0%Z
                          end)).
  { unfold transpose. rewrite HnrX, HncX, entry_build by assumption.
    unfold entry. rewrite nth_csr_matrix.
    apply nth_error_nth.
    now rewrite nth_error_map, (matrix_entry _ _ _ _ _ _ Hmat Hi Hj). }
  split.
  - intros e Hin <- <-. rewrite Hentry.
    now rewrite (cell_at_present _ _ (df_isin_unique_pairs _ _) Hin).
  - intros Hno. rewrite Hentry. now rewrite (cell_at_absent _ _ _ Hno).
Qed.

Lemma predict_receives_user_by_artist_plays_witness :
  let df_data := [Event "u1" "a" 300000; Event "u2" "b" 300000;
                  Event "u2" "a" 100000; Event "u1" "c" 400000] in
  let df_user := [Profile "u1" (Some "f") (Some "United Kingdom");
                  Profile "u2" (Some "f") (Some "United Kingdom")] in
  let X := [[300000; 100000]; [0; 300000]; [400000; 0]] in
  exists g,
    run df_data df_user = Ok g
    /\ has_shape 2 3 (transpose X)
    /\ entry (transpose X) 1 0 = IZR 100000
    /\ entry (transpose X) 0 1 = 0.
Proof.
  intros df_data df_user X.
  destruct sample_run as [g [Pi [Pu [Hrun [Hm [HX [HSi [HSu [HPi HPu]]]]]]]]].
  destruct (predict_receives_user_by_artist_plays df_data df_user g _ X
              Hrun Hm HX) as [Hsh H].
  exists g. split; [assumption|]. split; [exact Hsh|]. split.
  - apply (proj1 (H 0%nat 1%nat "a" "u2" eq_refl eq_refl)
             (Event "u2" "a" 100000)); [|reflexivity|reflexivity].
    vm_compute. auto.
  - apply (proj2 (H 1%nat 0%nat "b" "u1" eq_refl eq_refl)).
    intros e Hin. vm_compute in Hin.
    destruct Hin as [<-|[<-|[<-|[<-|[]]]]]; simpl; intros; discriminate.
Defined.

(** * The checking cell *)

Lemma exec_app (file_data : list event) (file_profiles : list profile)
    (cells1 cells2 : list cell) (g : env) :
  exec file_data file_profiles (cells1 ++ cells2)%list g
  = (g' <- exec file_data file_profiles cells1 g ;;
     exec file_data file_profiles cells2 g').
Proof.
  revert g. induction cells1 as [|c cells1 IH]; intros g; [reflexivity|].
  simpl. destruct (exec_cell file_data file_profiles c g) as [g1|e];
    simpl; [apply IH|reflexivity].
Qed.

(** What the checking cell does on a well-labelled frame. *)
Lemma checking_cases (m : frame Z) :
  well_labelled m ->
  (~ In "radiohead" (index m) -> checking m = Raise KeyError)
  /\ (In "radiohead" (index m) -> (length (index m) <= 1976)%nat ->
      checking m = Raise IndexError)
  /\ (In "radiohead" (index m) -> (1976 < length (index m))%nat ->
      exists row, checking m = Ok row
                  /\ loc_row m "radiohead" = Some row).
Proof.
  intros [_ [_ [Hlen _]]]. unfold checking. split; [|split].
  - intros Hn. now rewrite (get_loc_None _ _ Hn).
  - intros Hin Hle. destruct (get_loc_In _ _ Hin) as [i ->].
    cbn [or_raise bind].
    assert (E : nth_error (index m) 1976 = None)
      by now apply nth_error_None.
    now rewrite E.
  - intros Hin Hlt. destruct (get_loc_In _ _ Hin) as [i Hi].
    rewrite Hi. cbn [or_raise bind].
    destruct (nth_error (index m) 1976) as [a|] eqn:Ea;
      [|apply nth_error_None in Ea; lia].
    cbn [or_raise bind]. unfold iloc.
    destruct (nth_error (values m) 1976) as [row0|] eqn:Er;
      [|apply nth_error_None in Er; lia].
    cbn [or_raise bind]. unfold loc_row, iloc. rewrite Hi.
    assert (Hil : (i < length (values m))%nat).
    { rewrite Hlen. apply nth_error_Some.
      now rewrite (get_loc_Some _ _ _ Hi). }
    destruct (nth_error (values m) i) as [row|] eqn:Ei;
      [|apply nth_error_None in Ei; lia].
    exists row. now split.
Qed.

(** X3.  The first part of the notebook, its checking cell included,
    completes if and only if 'radiohead' is an artist of the restricted
    working table and that table has at least 1977 distinct artists,
    and it then ends in the name space of the binding cells; with no
    'radiohead' the checking cell raises [KeyError], and with
    'radiohead' among fewer than 1977 artists it raises [IndexError]. *)
Theorem first_part_completes_only_with_radiohead
    (df_data : list event) (df_user : list profile) :
  let artists := map artist (df_isin df_data df_user) in
  (forall g,
     first_part df_data df_user = Ok g
     <-> run df_data df_user = Ok g
         /\ In "radiohead" artists
         /\ (1977 <= length (nodup string_dec artists))%nat)
  /\ ((exists g, first_part df_data df_user = Ok g)
      <-> In "radiohead" artists
          /\ (1977 <= length (nodup string_dec artists))%nat)
  /\ (~ In "radiohead" artists ->
      first_part df_data df_user = Raise KeyError)
  /\ (In "radiohead" artists ->
      (length (nodup string_dec artists) < 1977)%nat ->
      first_part df_data df_user = Raise IndexError).
Proof.
  intros artists.
  destruct (pivot_cell_completes df_data df_user) as [g6 [m [Hg6 [Hm Hlk]]]].
  pose proof (matrix_well_labelled _ _ Hm) as Hwl.
  destruct (matrix_labels _ _ Hm) as [Hidx _].
  assert (Hlen : length (index m) = length (nodup string_dec artists)).
  { destruct (matrix_Ok _ _ Hm) as [_ ->]. simpl. apply unique_sorted_length. }
  assert (Hrun : run df_data df_user
                 = exec df_data df_user (skipn 6 notebook) g6).
  { unfold run. rewrite <- (firstn_skipn 6 notebook) at 1.
    now rewrite exec_app, Hg6. }
  assert (Hfirst : first_part df_data df_user
                   = (row <- checking m ;;
                      exec df_data df_user (skipn 6 notebook) g6)).
  { unfold first_part. rewrite Hg6. cbn [bind].
    unfold cell_checking, read. rewrite Hlk. cbn [as_frame bind].
    now destruct (checking m). }
  destruct (checking_cases m Hwl) as [Hkey [Hind Hok]].
  assert (Hcases : forall g,
            first_part df_data df_user = Ok g
            <-> run df_data df_user = Ok g
                /\ In "radiohead" artists
                /\ (1977 <= length (nodup string_dec artists))%nat).
  { intros g. rewrite Hfirst, Hrun, <- Hlen. split.
    - intros H.
      destruct (in_dec string_dec "radiohead" (index m)) as [Hin|Hn];
        [|rewrite (Hkey Hn) in H; discriminate].
      destruct (Nat.le_gt_cases (length (index m)) 1976) as [Hle|Hgt];
        [rewrite (Hind Hin Hle) in H; discriminate|].
      destruct (Hok Hin Hgt) as [row [Hrow _]]. rewrite Hrow in H.
      cbn [bind] in H. repeat split; [exact H|now apply Hidx|lia].
    - intros [H [Hin Hge]]. apply Hidx in Hin.
      destruct (Hok Hin ltac:(lia)) as [row [Hrow _]]. now rewrite Hrow. }
  split; [exact Hcases|]. split; [|split].
  - split.
    + intros [g H]. apply Hcases in H. tauto.
    + intros [Hin Hge].
      assert (Hne : df_isin df_data df_user <> []).
      { intros E. unfold artists in Hin. rewrite E in Hin. contradiction. }
      destruct (proj2 (run_completes_iff df_data df_user) Hne) as [g Hg].
      exists g. apply Hcases. now repeat split.
  - intros Hn. rewrite Hfirst, Hkey; [reflexivity|].
    intros H. apply Hn. now apply Hidx.
  - intros Hin Hlt. rewrite Hfirst, Hind; [reflexivity|now apply Hidx|lia].
Qed.

(** * Rows without an artist name *)

Lemma agg_sum_dropna_named (K : Type) (eqb : K -> K -> bool)
    (rows : list (option K * Z)) :
  agg_sum_dropna eqb rows
  = agg_sum eqb
      (flat_map (fun kv => match fst kv with
                           | Some k => [(k, snd kv)]
                           | None => []
                           end) rows).
Proof.
  unfold agg_sum_dropna, agg_sum.
  assert (H : forall acc,
            fold_left (fun acc kv => match fst kv with
                                     | Some k => agg_add eqb k (snd kv) acc
                                     | None => acc
                                     end) rows acc
            = fold_left (fun acc kv => agg_add eqb (fst kv) (snd kv) acc)
                (flat_map (fun kv : option K * Z =>
                             match fst kv with
                             | Some k => [(k, snd kv)]
                             | None => []
                             end) rows) acc).
  { induction rows as [|[[k|] v] rows IH]; intros acc; simpl;
      [reflexivity|apply IH|apply IH]. }
  apply H.
Qed.

Lemma named_events_app (t1 t2 : list parsed_event) :
  named_events (t1 ++ t2)%list = (named_events t1 ++ named_events t2)%list.
Proof. unfold named_events. apply flat_map_app. Qed.

Lemma named_events_copies (r : parsed_event) (l : list string) :
  named_events (map (fun _ : string => r) l)
  = match parsed_artist r with
    | Some a => map (fun _ : string => Event (parsed_user r) a (parsed_plays r)) l
    | None => []
    end.
Proof.
  unfold named_events. induction l as [|x l IH]; simpl.
  - now destruct (parsed_artist r).
  - rewrite IH. now destruct (parsed_artist r).
Qed.

Lemma named_events_merge (t : list parsed_event) (right : list string) :
  named_events (merge_parsed t right) = merge (named_events t) right.
Proof.
  induction t as [|r t IH]; [reflexivity|].
  change (merge_parsed (r :: t) right)
    with ((map (fun _ : string => r) (filter (String.eqb (parsed_user r)) right)
           ++ merge_parsed t right)%list).
  rewrite named_events_app, IH, named_events_copies.
  change (named_events (r :: t))
    with ((match parsed_artist r with
           | Some a => [Event (parsed_user r) a (parsed_plays r)]
           | None => []
           end ++ named_events t)%list).
  unfold merge at 2. rewrite flat_map_app. fold (merge (named_events t) right).
  destruct (parsed_artist r) as [a|]; simpl; [|reflexivity].
  now rewrite app_nil_r.
Qed.

Lemma parsed_plays_split (t : list parsed_event) :
  fold_right Z.add 0%Z (map parsed_plays t)
  = (fold_right Z.add 0 (map plays (named_events t))
     + fold_right Z.add 0 (map parsed_plays (unnamed_events t)))%Z.
Proof.
  unfold named_events, unnamed_events.
  induction t as [|r t IH]; simpl; [reflexivity|].
  rewrite IH. destruct (parsed_artist r); simpl; lia.
Qed.

Lemma df_artist_parsed_named (t : list parsed_event) :
  df_artist_parsed t = df_artist (named_events t).
Proof.
  unfold df_artist_parsed, df_artist, groupby_sum_dropna, groupby_sum.
  rewrite agg_sum_dropna_named. do 2 f_equal.
  unfold named_events. induction t as [|r t IH]; simpl; [reflexivity|].
  rewrite IH. now destruct (parsed_artist r).
Qed.

Lemma groupby_user_artist_parsed_named (t : list parsed_event) :
  groupby_user_artist_parsed t = groupby_user_artist (named_events t).
Proof.
  unfold groupby_user_artist_parsed, groupby_user_artist,
    groupby_sum_dropna, groupby_sum.
  rewrite agg_sum_dropna_named. do 3 f_equal.
  unfold named_events. induction t as [|r t IH]; simpl; [reflexivity|].
  rewrite IH. now destruct (parsed_artist r).
Qed.

Lemma groupby_user_artist_conserves (t : list event) :
  fold_right Z.add 0%Z (map plays (groupby_user_artist t))
  = fold_right Z.add 0%Z (map plays t).
Proof.
  unfold groupby_user_artist. rewrite map_map. simpl.
  etransitivity; [apply (groupby_sum_conserves _ key_eqb key_leb)|].
  rewrite map_map. reflexivity.
Qed.

Lemma df_artist_conserves (t : list event) :
  fold_right Z.add 0%Z (map snd (df_artist t))
  = fold_right Z.add 0%Z (map plays t).
Proof.
  unfold df_artist. rewrite groupby_sum_conserves, map_map. reflexivity.
Qed.

(** X11.  A parsed row without an artist name joins no group: the two
    aggregations of the parsed rows are those of the rows that carry a
    name, so the totals of [df_artist] add up to the plays of the
    listening table less the plays of its unnamed rows, and the plays of
    the aggregated working table to those of the joined table less the
    plays of its unnamed rows. *)
Theorem aggregations_drop_unnamed_rows
    (t : list parsed_event) (females : list string) :
  df_artist_parsed t = df_artist (named_events t)
  /\ groupby_user_artist_parsed (merge_parsed t females)
     = groupby_user_artist (merge (named_events t) females)
  /\ fold_right Z.add 0%Z (map snd (df_artist_parsed t))
     = (fold_right Z.add 0 (map parsed_plays t)
        - fold_right Z.add 0 (map parsed_plays (unnamed_events t)))%Z
  /\ fold_right Z.add 0%Z
       (map plays (groupby_user_artist_parsed (merge_parsed t females)))
     = (fold_right Z.add 0 (map parsed_plays (merge_parsed t females))
        - fold_right Z.add 0
            (map parsed_plays (unnamed_events (merge_parsed t females))))%Z.
Proof.
  split; [apply df_artist_parsed_named|].
  split; [now rewrite groupby_user_artist_parsed_named, named_events_merge|].
  split.
  - rewrite df_artist_parsed_named, (parsed_plays_split t),
      df_artist_conserves.
    now rewrite Z.add_simpl_r.
  - rewrite groupby_user_artist_parsed_named,
      (parsed_plays_split (merge_parsed t females)),
      groupby_user_artist_conserves.
    now rewrite Z.add_simpl_r.
Qed.
